(** * PrimeBot music player: session controller, queue and node launcher

    A shallow embedding of [utils/MusicPlayerInteraction.py] and
    [utils/process.py], and of the [cleanup] and [cog] commands of
    [cogs/Developer_.py].

    Conventions of the embedding.
    - A Python method that mutates [self] and awaits collaborators is a
      computation in the monad [M E S]: it takes the object state [S] and
      returns the new state, the calls it issued to its collaborators (a list
      of events [E], oldest first) and either a value or the exception that
      escaped.
    - What a collaborator answers (what the channel history holds, whether a
      delete fails, whether a track arrives before the timeout) is not decided
      by the program: each method takes an [Env] holding those answers.
    - A collaborator call raises, in the model, the exceptions its call site
      handles in the source ([asyncio.TimeoutError], [disnake.HTTPException],
      [AttributeError], [KeyError]); calls that stand outside every [try] are
      modelled on their returning path.
    - One invocation runs to completion: no other task changes the session
      between two of its steps. *)

From stdpp Require Import base option list gmap strings.
From Stdlib Require Import ZArith Lia.

Local Open Scope Z_scope.

(** ** Exceptions and the state-trace-exception monad *)

Inductive Exn : Set :=
| TimeoutError        (* asyncio.TimeoutError *)
| HTTPException       (* disnake.HTTPException *)
| AttributeError
| KeyError
| IndexError
| CalledProcessError  (* subprocess.CalledProcessError *)
| TypeError.

Record Result (E S A : Type) : Type := mkResult {
  res_value : Exn + A;    (* inl: the exception that escaped; inr: the returned value *)
  res_state : S;          (* the object after the call *)
  res_calls : list E      (* the calls issued, oldest first *)
}.
Arguments mkResult {E S A} _ _ _.
Arguments res_value {E S A} _.
Arguments res_state {E S A} _.
Arguments res_calls {E S A} _.

Definition M (E S A : Type) : Type := S → Result E S A.

Section Monad.
Context {E S : Type}.

Definition returns {A} (a : A) : M E S A := λ s, mkResult (inr a) s [].

Definition raise {A} (x : Exn) : M E S A := λ s, mkResult (inl x) s [].

Definition andthen {A B} (m : M E S A) (k : A → M E S B) : M E S B :=
  λ s, let r := m s in
       match res_value r with
       | inl x => mkResult (inl x) (res_state r) (res_calls r)
       | inr a => let r' := k a (res_state r) in
                  mkResult (res_value r') (res_state r') (res_calls r ++ res_calls r')
       end.

(** [try: m except: h]: [h x] is [Some k] when an [except] clause matches
    [x], and the exception propagates otherwise. *)
Definition try_except {A} (m : M E S A) (h : Exn → option (M E S A)) : M E S A :=
  λ s, let r := m s in
       match res_value r with
       | inl x =>
           match h x with
           | Some k => let r' := k (res_state r) in
                       mkResult (res_value r') (res_state r') (res_calls r ++ res_calls r')
           | None => r
           end
       | inr _ => r
       end.

(** A result with the calls [tr] issued before it. *)
Definition after {A} (tr : list E) (r : Result E S A) : Result E S A :=
  mkResult (res_value r) (res_state r) (tr ++ res_calls r).

Definition gets {A} (f : S → A) : M E S A := λ s, mkResult (inr (f s)) s [].
Definition modify (f : S → S) : M E S unit := λ s, mkResult (inr tt) (f s) [].
Definition call (ev : E) : M E S unit := λ s, mkResult (inr tt) s [ev].
End Monad.

#[global] Instance M_bind {E S} : MBind (M E S) := λ A B k m, andthen m k.

(** ** Tracks and messages *)

(** [Track]: a wavelink track with the [requester] attribute added. *)
Record Track : Set := mkTrack {
  track_id : string;
  title : string;
  author : string;
  uri : string;
  length_ms : Z;
  requester : nat
}.

(** What [channel.send] returns and [self.menu] holds.  [is_menu_available]
    reads [self.menu.message.id]: [msg_message] is that id, and [None] when the
    object has no attribute [message] (the read then raises
    [AttributeError]). *)
Record Message : Set := mkMessage {
  msg_id : nat;
  msg_message : option nat
}.

(** ** The queue

    [Queue] subclasses [asyncio.Queue], whose [_queue] is a deque: [put]
    appends on the right ([_put]), [get] pops on the left ([_get]) and waits
    while the deque is empty.  The subclass adds indexing, [clear], [shuffle]
    and [remove]; [shuffle] draws on the random generator and is left out. *)
Module Queue.

Abbreviation t := (list Track).

Definition qsize (q : t) : Z := Z.of_nat (length q).

(** [put_nowait]: [self._queue.append(item)]; the queue is unbounded. *)
Definition put_nowait (item : Track) : M Empty_set t unit :=
  modify (λ q, q ++ [item]).

(** [get_nowait]: [self._queue.popleft()], for a queue that is not empty. *)
Definition get_nowait (q : t) : option (Track * t) :=
  match q with
  | [] => None
  | item :: q' => Some (item, q')
  end.

(** [clear]: [self._queue.clear()]. *)
Definition clear : M Empty_set t unit := modify (λ _, []).

(** The position a Python index designates in a sequence of [n] elements:
    a negative index counts from the end, and what is then outside
    [0, n) is out of range. *)
Definition norm_index (n index : Z) : option nat :=
  let i := if index <? 0 then index + n else index in
  if (i <? 0) || (n <=? i) then None else Some (Z.to_nat i).

(** [remove]: [del self._queue[index]]. *)
Definition remove (index : Z) : M Empty_set t unit :=
  λ q, match norm_index (qsize q) index with
       | None => raise IndexError q
       | Some i => modify (delete i) q
       end.

(** [__getitem__] on an integer: [self._queue[item]]. *)
Definition getitem (index : Z) : M Empty_set t Track :=
  λ q, match norm_index (qsize q) index with
       | None => raise IndexError q
       | Some i => match q !! i with
                   | Some x => returns x q
                   | None => raise IndexError q
                   end
       end.

(** *** Producers and one consumer

    The schedule of a queue shared by producers (commands that enqueue) and
    the one consumer (the play-next loop): a producer puts an item, the
    consumer asks for the next item, or the consumer's wait is cancelled by
    its timeout.  [blocked] holds while the consumer waits in [get] on an
    empty queue; the next [put] wakes it and it pops the left end. *)
Inductive Op : Set :=
| Enqueue (item : Track)
| Pop
| Expire.

Record Shared : Type := mkShared {
  items : t;                (* self._queue *)
  blocked : bool;           (* the consumer is suspended in [get] *)
  popped : list Track       (* what [get] has returned so far, oldest first *)
}.

Definition fresh : Shared := mkShared [] false [].

Definition step (s : Shared) (o : Op) : Shared :=
  match o with
  | Enqueue item =>
      let q := res_state (put_nowait item (items s)) in
      if blocked s then
        match get_nowait q with
        | Some (x, q') => mkShared q' false (popped s ++ [x])
        | None => mkShared q true (popped s)
        end
      else mkShared q false (popped s)
  | Pop =>
      if blocked s then s
      else match get_nowait (items s) with
           | Some (x, q') => mkShared q' false (popped s ++ [x])
           | None => mkShared (items s) true (popped s)
           end
  | Expire => mkShared (items s) false (popped s)
  end.

Definition run (ops : list Op) (s : Shared) : Shared := foldl step s ops.

(** The items enqueued by a schedule, in the order of the enqueues. *)
Fixpoint enqueued (ops : list Op) : list Track :=
  match ops with
  | [] => []
  | Enqueue item :: ops' => item :: enqueued ops'
  | _ :: ops' => enqueued ops'
  end.

End Queue.

(** ** The playback session *)

Definition newline : string := String (Ascii.ascii_of_nat 10) EmptyString.

(** The payload of the now-playing message.  Of the fields
    [make_song_embed] adds, the model keeps those that are text of the track
    and of the session; the renderings of durations, position and volume, the
    channel and the DJ mention are left out. *)
Record Embed : Set := mkEmbed {
  description : string;
  loop_field : string;          (* "Track on loop?" *)
  video_url : string;
  author_field : string;
  requested_by : nat
}.

(** The calls a session issues to its collaborators: its queue, the external
    node (through the wavelink base class), the chat channel and the logger.
    [MessageEdit] is the chat platform's edit call. *)
Inductive Event : Set :=
| QueueGet (timeout : Z)                              (* await self.queue.get() under a timeout *)
| NodePlay (track : option Track)                     (* await self.play(track) *)
| NodeDestroy                                         (* await self.destroy() *)
| ChannelSend (embed : option Embed) (created : Message)
| ChannelHistory (limit : nat)
| MessageDelete (m : Message)
| MessageEdit (m : Message) (embed : option Embed)
| LogWarning (text : string) (why : option Exn).

(** What the collaborators answer during one invocation. *)
Record Env : Type := mkEnv {
  arrivals : list Track;       (* tracks the producers enqueue while [queue.get()] waits *)
  recent : option (list nat);  (* ids the channel history yields, newest first;
                                  [None]: the scan raises HTTPException *)
  delete_fails : bool;         (* [menu.delete()] raises HTTPException *)
  destroy_fails : bool;        (* [destroy()] raises KeyError *)
  sent : Message               (* the message [channel.send] creates *)
}.

(** [wavelink.Player], the base class of [Player]: the session reads
    [is_playing] and [current] and calls [play] and [destroy] on it.  Its
    module is not among the sources, so the session is stated over any
    implementation [B] of this interface. *)
Class NodePlayer (B : Type) : Type := {
  is_playing : B → bool;
  current : B → option Track;
  play_on : option Track → B → B;     (* the base state after [play(track)] *)
  destroy_on : bool → B → B           (* the base state after [destroy()];
                                         the flag: it raised KeyError *)
}.

Definition idle_timeout : Z := 120.

Section Session.
Context {B : Type} `{NodePlayer B}.

(** The attributes [Player.__init__] adds to the base player.  [context],
    [dj] and [channel] are handles on the chat platform: what is done through
    them shows in the trace. *)
Record Player : Type := mkPlayer {
  queue : Queue.t;
  menu : option Message;
  _loop : bool;
  waiting : bool;
  updating : bool;
  now : option Track;
  pause_votes : gset nat;
  resume_votes : gset nat;
  skip_votes : gset nat;
  shuffle_votes : gset nat;
  stop_votes : gset nat;
  clear_votes : gset nat;
  base : B
}.

(** [Player.__init__] *)
Definition init (b : B) : Player :=
  mkPlayer [] None false false false None ∅ ∅ ∅ ∅ ∅ ∅ b.

Definition set_queue (v : Queue.t) (p : Player) : Player :=
  mkPlayer v (menu p) (_loop p) (waiting p) (updating p) (now p)
    (pause_votes p) (resume_votes p) (skip_votes p) (shuffle_votes p) (stop_votes p) (clear_votes p) (base p).

Definition set_menu (v : option Message) (p : Player) : Player :=
  mkPlayer (queue p) v (_loop p) (waiting p) (updating p) (now p)
    (pause_votes p) (resume_votes p) (skip_votes p) (shuffle_votes p) (stop_votes p) (clear_votes p) (base p).

Definition set_loop (v : bool) (p : Player) : Player :=
  mkPlayer (queue p) (menu p) v (waiting p) (updating p) (now p)
    (pause_votes p) (resume_votes p) (skip_votes p) (shuffle_votes p) (stop_votes p) (clear_votes p) (base p).

Definition set_waiting (v : bool) (p : Player) : Player :=
  mkPlayer (queue p) (menu p) (_loop p) v (updating p) (now p)
    (pause_votes p) (resume_votes p) (skip_votes p) (shuffle_votes p) (stop_votes p) (clear_votes p) (base p).

Definition set_updating (v : bool) (p : Player) : Player :=
  mkPlayer (queue p) (menu p) (_loop p) (waiting p) v (now p)
    (pause_votes p) (resume_votes p) (skip_votes p) (shuffle_votes p) (stop_votes p) (clear_votes p) (base p).

Definition set_now (v : option Track) (p : Player) : Player :=
  mkPlayer (queue p) (menu p) (_loop p) (waiting p) (updating p) v
    (pause_votes p) (resume_votes p) (skip_votes p) (shuffle_votes p) (stop_votes p) (clear_votes p) (base p).

Definition set_pause_votes (v : gset nat) (p : Player) : Player :=
  mkPlayer (queue p) (menu p) (_loop p) (waiting p) (updating p) (now p)
    v (resume_votes p) (skip_votes p) (shuffle_votes p) (stop_votes p) (clear_votes p) (base p).

Definition set_resume_votes (v : gset nat) (p : Player) : Player :=
  mkPlayer (queue p) (menu p) (_loop p) (waiting p) (updating p) (now p)
    (pause_votes p) v (skip_votes p) (shuffle_votes p) (stop_votes p) (clear_votes p) (base p).

Definition set_skip_votes (v : gset nat) (p : Player) : Player :=
  mkPlayer (queue p) (menu p) (_loop p) (waiting p) (updating p) (now p)
    (pause_votes p) (resume_votes p) v (shuffle_votes p) (stop_votes p) (clear_votes p) (base p).

Definition set_shuffle_votes (v : gset nat) (p : Player) : Player :=
  mkPlayer (queue p) (menu p) (_loop p) (waiting p) (updating p) (now p)
    (pause_votes p) (resume_votes p) (skip_votes p) v (stop_votes p) (clear_votes p) (base p).

Definition set_stop_votes (v : gset nat) (p : Player) : Player :=
  mkPlayer (queue p) (menu p) (_loop p) (waiting p) (updating p) (now p)
    (pause_votes p) (resume_votes p) (skip_votes p) (shuffle_votes p) v (clear_votes p) (base p).

Definition set_base (v : B) (p : Player) : Player :=
  mkPlayer (queue p) (menu p) (_loop p) (waiting p) (updating p) (now p)
    (pause_votes p) (resume_votes p) (skip_votes p) (shuffle_votes p) (stop_votes p) (clear_votes p) v.

Abbreviation Act := (M Event Player).

(** [await self.queue.get()] inside [async_timeout.timeout(120)]: the left
    end of the queue when there is one; otherwise the consumer waits, the
    producers put [arrivals e], and the wait ends with the left end of those
    or, when nothing arrived, with [TimeoutError]. *)
Definition queue_get (e : Env) : Act Track :=
  call (QueueGet idle_timeout);;
  q ← gets queue;
  match Queue.get_nowait q with
  | Some (item, q') => modify (set_queue q');; returns item
  | None =>
      match Queue.get_nowait (q ++ arrivals e) with
      | Some (item, q') => modify (set_queue q');; returns item
      | None => raise TimeoutError
      end
  end.

(** [await self.play(track)] *)
Definition play (track : option Track) : Act unit :=
  call (NodePlay track);;
  modify (λ p, set_base (play_on track (base p)) p).

(** [await self.destroy()] *)
Definition destroy (e : Env) : Act unit :=
  call NodeDestroy;;
  modify (λ p, set_base (destroy_on (destroy_fails e) (base p)) p);;
  if destroy_fails e then raise KeyError else returns tt.

(** [await self.menu.delete()] *)
Definition menu_delete (e : Env) : Act unit :=
  m ← gets menu;
  match m with
  | None => raise AttributeError
  | Some msg =>
      call (MessageDelete msg);;
      if delete_fails e then raise HTTPException else returns tt
  end.

(** [await self.channel.send(embed=...)] *)
Definition channel_send (e : Env) (embed : option Embed) : Act Message :=
  call (ChannelSend embed (sent e));;
  returns (sent e).

(** [self.context.channel.history(limit=...)] *)
Definition channel_history (e : Env) (limit : nat) : Act (list nat) :=
  call (ChannelHistory limit);;
  match recent e with
  | None => raise HTTPException
  | Some ids => returns (take limit ids)
  end.

(** The embed [make_song_embed] builds from the session: [None] when the
    base player has no current track. *)
Definition song_embed (p : Player) : option Embed :=
  match current (base p) with
  | None => None
  | Some track =>
      let mode := if _loop p then "yes" else "off" in
      Some (mkEmbed ("```css" +:+ newline +:+ "Now Playing:" +:+ newline +:+
                     "**" +:+ title track +:+ "**```")
                    mode (uri track) (author track) (requester track))
  end.

(** [make_song_embed] *)
Definition make_song_embed : Act (option Embed) := gets song_embed.

(** The body of the [async for] of [is_menu_available], over the messages
    the history yields: [message.id == self.menu.message.id]. *)
Fixpoint scan_history (ids : list nat) : Act bool :=
  match ids with
  | [] => returns false
  | i :: rest =>
      m ← gets menu;
      match m with
      | None => raise AttributeError
      | Some msg =>
          match msg_message msg with
          | None => raise AttributeError
          | Some mid => if bool_decide (i = mid) then returns true else scan_history rest
          end
      end
  end.

(** [is_menu_available] *)
Definition is_menu_available (e : Env) : Act bool :=
  try_except
    (ids ← channel_history e 10;
     scan_history ids)
    (λ x, match x with
          | HTTPException | AttributeError => Some (returns false)
          | _ => None
          end).

(** The two [except] clauses around [self.menu.delete()] in
    [songmenucontroller]. *)
Definition on_stale_delete (x : Exn) : option (Act unit) :=
  match x with
  | HTTPException | AttributeError =>
      Some (call (LogWarning "Failed to delete menu message: " (Some x)))
  | _ => None
  end.

(** [songmenucontroller] *)
Definition songmenucontroller (e : Env) : Act unit :=
  busy ← gets updating;
  if (busy : bool) then returns tt
  else
    modify (set_updating true);;
    m ← gets menu;
    match m with
    | None =>
        embed ← make_song_embed;
        msg ← channel_send e embed;
        modify (set_menu (Some msg))
    | Some _ =>
        available ← is_menu_available e;
        if negb (available : bool) then
          try_except (menu_delete e) on_stale_delete;;
          embed ← make_song_embed;
          channel_send e embed;;
          returns tt
        else
          embed ← make_song_embed;
          channel_send e embed;;
          returns tt
    end;;
    modify (set_updating false).

(** The [except] clauses of [teardown]. *)
Definition on_teardown_delete (x : Exn) : option (Act unit) :=
  match x with
  | HTTPException => Some (call (LogWarning "Failed to delete menu message: " (Some x)))
  | AttributeError => Some (call (LogWarning "Failed to delete menu message: No menu message" None))
  | _ => None
  end.

Definition on_teardown_destroy (x : Exn) : option (Act unit) :=
  match x with
  | KeyError => Some (call (LogWarning "Failed to destroy player: " (Some x)))
  | _ => None
  end.

(** [teardown] *)
Definition teardown (e : Env) : Act unit :=
  try_except (menu_delete e) on_teardown_delete;;
  try_except (destroy e) on_teardown_destroy.

(** The five [clear()] calls at the head of [play_next_song]. *)
Definition clear_votes_for_new_song : Act unit :=
  modify (set_pause_votes ∅);;
  modify (set_resume_votes ∅);;
  modify (set_skip_votes ∅);;
  modify (set_shuffle_votes ∅);;
  modify (set_stop_votes ∅).

(** The [try] block of [play_next_song] with its [except] clause; it
    yields [true] when the method returned from inside it
    ([return await self.teardown()]). *)
Definition try_block (e : Env) : Act bool :=
  try_except
    (modify (set_waiting true);;
     track ← queue_get e;
     modify (set_now (Some track));;
     play (Some track);;
     modify (set_waiting false);;
     (* Start our song menu *)
     songmenucontroller e;;
     returns false)
    (λ x, match x with
          | TimeoutError => Some (teardown e;; returns true)
          | _ => None
          end).

(** The second [if self._loop] of [play_next_song]. *)
Definition repeat_block (e : Env) : Act unit :=
  looping ← gets _loop;
  if (looping : bool) then
    track ← gets now;
    play track;;
    songmenucontroller e
  else returns tt.

(** [play_next_song] *)
Definition play_next_song (e : Env) : Act unit :=
  p ← gets (λ p, p);
  if is_playing (base p) || waiting p then returns tt
  else
    clear_votes_for_new_song;;
    looping ← gets _loop;
    returned ← (if negb (looping : bool) then try_block e else returns false);
    if (returned : bool) then returns tt else repeat_block e.

(** The setter of the [loop] property. *)
Definition loop_setter (value : bool) : Act unit := modify (set_loop value).

End Session.

Arguments Player B : clear implicits.

(** Modelled from the spec: [wavelink.Player], whose module
    ([wavelink/player.py]) is not among the sources.  The spec's external
    node has the operations [play(track)] and [destroy()]; its state
    [Playing] is "current track set, actively rendering", and a released
    resource renders nothing.  The theorems below hold for every
    [NodePlayer]; this instance is the one the concrete sessions of the
    examples run on. *)
Record Node : Set := mkNode {
  node_current : option Track;
  node_released : bool
}.

#[global] Instance Node_player : NodePlayer Node := {|
  is_playing n := bool_decide (is_Some (node_current n)) && negb (node_released n);
  current := node_current;
  play_on track n := mkNode track (node_released n);
  destroy_on _ _ := mkNode None true
|}.

(** ** Launching the node: [utils/process.py] *)
Module Process.

Inductive Level : Set := Success | Info | Error.

Inductive Event : Set :=
| Run (args : list string) (shell : bool)       (* subprocess.run(args, shell=...) *)
| Log (level : Level) (text : string)           (* logger.success / info / error *)
| Print (text : string)
| ThreadStart.

#[global] Instance Level_eq_dec : EqDecision Level.
Proof. solve_decision. Defined.

#[global] Instance Event_eq_dec : EqDecision Event.
Proof. solve_decision. Defined.

(** [subprocess.CompletedProcess], with [text=True]. *)
Record Completed : Set := mkCompleted {
  returncode : Z;
  stdout : string
}.

(** What the two child processes answer. *)
Record Env : Set := mkEnv {
  which : Completed;
  launch : Completed
}.

Definition bash_command : string := "cd Lavalink && java -jar Lavalink.jar".
Definition BaseProgram : string := "java".

Definition dquote : string := String (Ascii.ascii_of_nat 34) EmptyString.

(** [subprocess.run(args, shell=..., check=...)]: a child that exits with
    a status other than 0 raises [CalledProcessError] only under
    [check=True]. *)
Definition subprocess_run (args : list string) (shell check : bool)
    (answer : Completed) : M Event unit Completed :=
  call (Run args shell);;
  if check && negb (returncode answer =? 0) then raise CalledProcessError
  else returns answer.

(** [run_lavalink_process] *)
Definition run_lavalink_process (e : Env) : M Event unit unit :=
  process ← subprocess_run ["which"; BaseProgram] false false (which e);
  if returncode process =? 0 then
    call (Log Success ("The program " +:+ dquote +:+ BaseProgram +:+ dquote
                       +:+ " is installed. Lavalink can be run."));;
    call (Log Info ("The location of " +:+ BaseProgram +:+ " is: " +:+ stdout process));;
    output ← subprocess_run [bash_command] true false (launch e);
    (if returncode output =? 0 then call (Log Success "Lavalink is running.")
     else returns tt);;
    if returncode output =? -2 then returns tt
    else call (Log Error ("Lavalink is not running. Error: " +:+ stdout output))
  else
    call (Log Error ("Sorry, " +:+ BaseProgram +:+
                     " is not installed in your system. Please install it in order to run Lavalink."));;
    call (Print (stdout process)).

(** [lavalink_alive]: the routine runs once, in a thread of its own; what
    it raises ends that thread and does not reach the caller. *)
Definition lavalink_alive (e : Env) : M Event unit unit :=
  λ s, let r := run_lavalink_process e s in
       mkResult (inr tt) (res_state r) (ThreadStart :: res_calls r).

(** The number of times a trace runs the launch command. *)
Definition launches (tr : list Event) : nat :=
  length (filter (λ ev, ev = Run [bash_command] true) tr).

End Process.

(** ** Reading traces and running sessions *)

(** The messages a trace creates, the messages it edits and the tracks it
    asks the node to play, oldest first. *)
Definition sends (tr : list Event) : list Message :=
  omap (λ ev, match ev with ChannelSend _ created => Some created | _ => None end) tr.

Definition edits (tr : list Event) : list Message :=
  omap (λ ev, match ev with MessageEdit m _ => Some m | _ => None end) tr.

Definition plays (tr : list Event) : list (option Track) :=
  omap (λ ev, match ev with NodePlay track => Some track | _ => None end) tr.

Definition pops (tr : list Event) : list Z :=
  omap (λ ev, match ev with QueueGet timeout => Some timeout | _ => None end) tr.

Section Runs.
Context {B : Type} `{NodePlayer B}.

(** What [is_menu_available] answers, read off the session and the channel:
    the id behind [self.menu.message] is among the ten newest messages. *)
Definition menu_seen (e : Env) (p : Player B) : bool :=
  match recent e, menu p with
  | Some ids, Some m =>
      match msg_message m with
      | Some mid => bool_decide (mid ∈ take 10 ids)
      | None => false
      end
  | _, _ => false
  end.

(** The session after the five [clear()] calls at the head of
    [play_next_song]. *)
Definition cleared (p : Player B) : Player B :=
  set_stop_votes ∅ (set_shuffle_votes ∅ (set_skip_votes ∅
    (set_resume_votes ∅ (set_pause_votes ∅ p)))).

(** What the wait of [queue_get] ends with: the track it returns and the
    queue it leaves, or [None] when the timeout expires. *)
Definition next_track (e : Env) (p : Player B) : option (Track * Queue.t) :=
  match Queue.get_nowait (queue p) with
  | Some r => Some r
  | None => Queue.get_nowait (queue p ++ arrivals e)
  end.

(** The session at the moment [play_next_song] has started the track it
    popped, before the menu is refreshed. *)
Definition started (track : Track) (q' : Queue.t) (p : Player B) : Player B :=
  set_waiting false
    (set_base (play_on (Some track) (base p))
       (set_now (Some track) (set_queue q' (set_waiting true (cleared p))))).

(** The six vote sets of a session. *)
Definition votes (p : Player B) : list (gset nat) :=
  [pause_votes p; resume_votes p; skip_votes p; shuffle_votes p; stop_votes p;
   clear_votes p].

(** The scan of the history before the [except] clause is applied. *)
Definition scan_answer (p : Player B) (ids : list nat) : Exn + bool :=
  match ids, menu p with
  | [], _ => inr false
  | _ :: _, None => inl AttributeError
  | _ :: _, Some m =>
      match msg_message m with
      | None => inl AttributeError
      | Some mid => inr (bool_decide (mid ∈ ids))
      end
  end.

(** The calls of [teardown], written out: the delete of the menu message
    with its warning, then the release of the node with its warning. *)
Definition teardown_calls (e : Env) (p : Player B) : list Event :=
  match menu p with
  | None => [LogWarning "Failed to delete menu message: No menu message" None]
  | Some m =>
      MessageDelete m ::
      (if delete_fails e
       then [LogWarning "Failed to delete menu message: " (Some HTTPException)]
       else [])
  end ++
  NodeDestroy ::
  (if destroy_fails e
   then [LogWarning "Failed to destroy player: " (Some KeyError)]
   else []).

(** What happens to a session during its life: its own methods are
    invoked, commands enqueue tracks, and the node changes the state of the
    base player (a track ends, a position update arrives). *)
Inductive Invocation : Type :=
| PlayNextSong (e : Env)
| SongMenuController (e : Env)
| Teardown (e : Env)
| SetLoop (value : bool)
| Put (item : Track)
| NodeUpdate (f : B → B).

Definition invoke (i : Invocation) : M Event (Player B) unit :=
  match i with
  | PlayNextSong e => play_next_song e
  | SongMenuController e => songmenucontroller e
  | Teardown e => teardown e
  | SetLoop value => loop_setter value
  | Put item => modify (λ p, set_queue (res_state (Queue.put_nowait item (queue p))) p)
  | NodeUpdate f => modify (λ p, set_base (f (base p)) p)
  end.

(** A life of the session: the invocations run one after the other, each on
    the state the previous one left, and the calls accumulate. *)
Fixpoint live (acts : list Invocation) (p : Player B) (tr : list Event)
    : Player B * list Event :=
  match acts with
  | [] => (p, tr)
  | i :: rest => let r := invoke i p in live rest (res_state r) (tr ++ res_calls r)
  end.

End Runs.

(** ** Concrete sessions *)
Module Sample.

Definition song_a : Track := mkTrack "a" "Song A" "Ann" "https://a" 180000 11.
Definition song_b : Track := mkTrack "b" "Song B" "Bob" "https://b" 200000 12.

Definition first_message : Message := mkMessage 501 None.
Definition second_message : Message := mkMessage 502 None.

Definition idle_node : Node := mkNode None false.

(** Nothing arrives, the channel shows the first message, no call fails. *)
Definition quiet (created : Message) : Env :=
  mkEnv [] (Some [501%nat]) false false created.

(** A fresh session with one queued track and votes pending on three
    actions. *)
Definition voted : Player Node :=
  mkPlayer [song_a] None false false false None
    {[ 1%nat ]} ∅ {[ 2%nat ]} ∅ ∅ {[ 3%nat ]} idle_node.

(** A session in loop mode whose track has just completed, with a skip
    vote pending. *)
Definition looping : Player Node :=
  mkPlayer [] (Some first_message) true false false (Some song_a)
    ∅ ∅ {[ 7%nat ]} ∅ ∅ {[ 3%nat ]} idle_node.


(** A session that is waiting for its next track. *)
Definition parked : Player Node :=
  set_waiting true (set_queue [song_b] (init idle_node)).

End Sample.

(** ** Slices of the queue *)
Module QueueView.
Import Queue.




End QueueView.

(** ** Lives of a session out of loop mode *)
Section Lives.
Context {B : Type} `{NodePlayer B}.

(** The tracks the commands of a life enqueue, in order. *)
Definition puts (acts : list (@Invocation B)) : list Track :=
  omap (λ i, match i with Put item => Some item | _ => None end) acts.

(** An invocation that neither switches loop mode on nor sees a track
    arrive while it waits on the empty queue. *)
Definition calm (i : @Invocation B) : Prop :=
  match i with
  | PlayNextSong e => arrivals e = []
  | SetLoop value => value = false
  | _ => True
  end.

End Lives.

(** The messages a trace asks to delete, and the number of times it asks
    the node for a release. *)
Definition deletes (tr : list Event) : list Message :=
  omap (λ ev, match ev with MessageDelete m => Some m | _ => None end) tr.

Definition releases (tr : list Event) : nat :=
  length (omap (λ ev, match ev with NodeDestroy => Some tt | _ => None end) tr).

(** ** The owner's [cleanup] command: [cogs/Developer_.py] *)
Module Developer.

(** A message of the channel: its id and the id of its author. *)
Record ChatMessage : Set := mkChatMessage {
  cm_id : nat;
  cm_author : nat
}.

#[global] Instance ChatMessage_eq_dec : EqDecision ChatMessage.
Proof. solve_decision. Defined.

Inductive Event : Set :=
| RespondDeleting (amount : Z) (ephemeral : bool)
    (* interaction.response.send_message(f"Deleting {amount} messages now...") *)
| Typing                       (* async with interaction.channel.typing() *)
| History (limit : Z)          (* interaction.channel.history(limit=amount) *)
| Delete (m : ChatMessage)     (* await m.delete() *)
| LogError (why : Exn).        (* self.bot.logger.error(error) *)

(** What the channel answers: the messages the history yields, newest
    first, and for each message what its delete raises, if anything. *)
Record Env : Type := mkEnv {
  yielded : list ChatMessage;
  delete_raises : ChatMessage → option Exn
}.

(** The two lists [cleanup] builds. *)
Record Purge : Set := mkPurge {
  deleted : list ChatMessage;
  messages : list ChatMessage
}.

Abbreviation Act := (M Event Purge).

(** [await m.delete()] *)
Definition delete_message (e : Env) (m : ChatMessage) : Act unit :=
  call (Delete m);;
  match delete_raises e m with
  | Some x => raise x
  | None => returns tt
  end.

(** The body of the [async for]: [try ... except Exception ... else ...]. *)
Definition purge_one (bot_user : nat) (e : Env) (m : ChatMessage) : Act unit :=
  modify (λ s, mkPurge (deleted s) (messages s ++ [m]));;
  if bool_decide (cm_author m = bot_user) then
    gone ← try_except
              (delete_message e m;; returns true)
              (λ x, Some (call (LogError x);; returns false));
    if (gone : bool) then modify (λ s, mkPurge (deleted s ++ [m]) (messages s))
    else returns tt
  else returns tt.

Fixpoint purge_each (bot_user : nat) (e : Env) (ms : list ChatMessage) : Act unit :=
  match ms with
  | [] => returns tt
  | m :: rest => purge_one bot_user e m;; purge_each bot_user e rest
  end.

(** [Owner.cleanup] *)
Definition cleanup (bot_user : nat) (e : Env) (amount : Z) : Act unit :=
  call (RespondDeleting amount true);;
  modify (λ _, mkPurge [] []);;
  call Typing;;
  call (History amount);;
  purge_each bot_user e (yielded e).

(** The messages a trace asks to delete and the errors it logs. *)
Definition delete_calls (tr : list Event) : list ChatMessage :=
  omap (λ ev, match ev with Delete m => Some m | _ => None end) tr.

Definition logged (tr : list Event) : list Exn :=
  omap (λ ev, match ev with LogError x => Some x | _ => None end) tr.

End Developer.

(** ** The owner's [cog] command: [cogs/Developer_.py] *)
Module CogManager.

(** What the command answers the owner. *)
Inductive Reply : Set :=
| NotLoaded (cog : string) (error : Exn)   (* "Cog **{cog}** is not loaded. Error: ..." *)
| Stopped (cog : string)                   (* "Cog **{cog}** has stopped running." *)
| HasError (error : Exn)                   (* "This cog has an error located in it.", with error.log *)
| Running (cog : string)                   (* "Cog **{cog}** is now running." *)
| Reloaded (cog : string).                 (* "Cog **{cog}** has been reloaded." *)

Inductive Event : Set :=
| UnloadExtension (name : string)          (* self.bot.unload_extension(name) *)
| LoadExtension (name : string)            (* self.bot.load_extension(name) *)
| ReloadExtension (name : string)          (* self.bot.reload_extension(name) *)
| SendMessage (reply : Reply) (ephemeral : bool).
                                           (* interaction.response.send_message(...) *)

(** What the bot answers: what the extension call raises, if anything, and
    what writing the traceback into the file [error.log] raises, if
    anything. *)
Record Env : Set := mkEnv {
  extension_raises : option Exn;
  error_log_raises : option Exn
}.

Abbreviation Act := (M Event unit).

Definition extension_call (ev : Event) (e : Env) : Act unit :=
  call ev;;
  match extension_raises e with
  | Some x => raise x
  | None => returns tt
  end.

(** The [with BytesIO() as file] block of the [enable] and [reload]
    branches. *)
Definition error_file (e : Env) (error : Exn) : Act Reply :=
  match error_log_raises e with
  | Some x => raise x
  | None => returns (HasError error)
  end.

(** One branch of the command: [try] the extension call; on any exception
    answer with [on_error] and return; otherwise answer with [done]. *)
Definition manage (ev : Event) (e : Env) (on_error : Exn → Act Reply) (done : Reply)
    : Act unit :=
  returned ← try_except
                (extension_call ev e;; returns false)
                (λ x, Some (reply ← on_error x;
                            call (SendMessage reply true);;
                            returns true));
  if (returned : bool) then returns tt
  else call (SendMessage done true).

Section Command.
(** [str.lower] *)
Variable lower : string → string.

(** [Owner.cog] *)
Definition cog (e : Env) (action name : string) : Act unit :=
  if bool_decide (lower action = "disable") then
    manage (UnloadExtension ("cogs." +:+ name)) e
           (λ x, returns (NotLoaded name x)) (Stopped name)
  else if bool_decide (lower action = "enable") then
    manage (LoadExtension ("cogs." +:+ name)) e (error_file e) (Running name)
  else if bool_decide (lower action = "reload") then
    manage (ReloadExtension ("cogs." +:+ name)) e (error_file e) (Reloaded name)
  else returns tt.

End Command.

(** The values of the [Action] enumeration, which the command offers for
    its [action] parameter. *)
Definition Action : list string := ["enable"; "disable"; "reload"; "remove"].

(** Lower case of the letters A to Z; the other characters are kept. *)
Fixpoint ascii_lower (s : string) : string :=
  match s with
  | EmptyString => EmptyString
  | String c s' =>
      let n := Ascii.nat_of_ascii c in
      String (if (65 <=? n)%nat && (n <=? 90)%nat
              then Ascii.ascii_of_nat (n + 32) else c)
             (ascii_lower s')
  end.

(** The replies a trace sends and the extension calls it makes. *)
Definition replies (tr : list Event) : list (Reply * bool) :=
  omap (λ ev, match ev with SendMessage r eph => Some (r, eph) | _ => None end) tr.

Definition extension_calls (tr : list Event) : list Event :=
  omap (λ ev, match ev with SendMessage _ _ => None | _ => Some ev end) tr.

End CogManager.

(** ** More concrete inputs *)
Module MoreSamples.
Import Sample.

Definition song_c : Track := mkTrack "c" "Song C" "Cy" "https://c" 90000 13.

Definition three : Queue.t := [song_a; song_b; song_c].

(** A new session with two queued tracks. *)
Definition queued : Player Node := set_queue [song_a; song_b] (init idle_node).


(** A session whose first message is its menu. *)
Definition with_menu : Player Node := set_menu (Some first_message) (init idle_node).


Definition java_found : Process.Env :=
  Process.mkEnv (Process.mkCompleted 0 "/usr/bin/java")
                (Process.mkCompleted 0 EmptyString).

Definition java_missing : Process.Env :=
  Process.mkEnv (Process.mkCompleted 1 EmptyString)
                (Process.mkCompleted 0 EmptyString).

Definition broken_extension : CogManager.Env :=
  CogManager.mkEnv (Some KeyError) None.

Definition broken_twice : CogManager.Env :=
  CogManager.mkEnv (Some KeyError) (Some AttributeError).

End MoreSamples.

(** * Properties *)

(** ** The monad *)
Section MonadFacts.
Context {E S : Type}.
Implicit Types (s : S) (tr : list E).

Lemma after_nil {A} (r : Result E S A) : after [] r = r.
Proof. by destruct r. Qed.

Lemma after_after {A} tr tr' (r : Result E S A) :
  after tr (after tr' r) = after (tr ++ tr') r.
Proof. unfold after. cbn. by rewrite app_assoc. Qed.

Lemma after_result {A} tr (v : Exn + A) s tr' :
  after tr (mkResult v s tr') = mkResult v s (tr ++ tr').
Proof. reflexivity. Qed.

(** A computation that returns, followed by its continuation. *)
Lemma bind_run {A C} (m : M E S A) (k : A → M E S C) s a s' tr :
  m s = mkResult (inr a) s' tr → (m ≫= k) s = after tr (k a s').
Proof. intros Hm. unfold mbind, M_bind, andthen. by rewrite Hm. Qed.

(** A computation that raises skips its continuation. *)
Lemma bind_raised {A C} (m : M E S A) (k : A → M E S C) s x s' tr :
  m s = mkResult (inl x) s' tr → (m ≫= k) s = mkResult (inl x) s' tr.
Proof. intros Hm. unfold mbind, M_bind, andthen. by rewrite Hm. Qed.

Lemma bind_returns {A C} (a : A) (k : A → M E S C) s :
  (returns a ≫= k) s = k a s.
Proof. rewrite (bind_run _ _ s a s []) by done. apply after_nil. Qed.

Lemma bind_gets {A C} (f : S → A) (k : A → M E S C) s :
  (gets f ≫= k) s = k (f s) s.
Proof. rewrite (bind_run _ _ s (f s) s []) by done. apply after_nil. Qed.

Lemma bind_modify {C} (f : S → S) (k : unit → M E S C) s :
  (modify f ≫= k) s = k tt (f s).
Proof. rewrite (bind_run _ _ s tt (f s) []) by done. apply after_nil. Qed.

Lemma bind_call {C} (ev : E) (k : unit → M E S C) s :
  (call ev ≫= k) s = after [ev] (k tt s).
Proof. by rewrite (bind_run _ _ s tt s [ev]). Qed.

Lemma bind_raise {A C} (x : Exn) (k : A → M E S C) s :
  (raise x ≫= k) s = raise x s.
Proof. by rewrite (bind_raised _ _ s x s []). Qed.

Lemma bind_assoc {A C D} (m : M E S A) (f : A → M E S C) (g : C → M E S D) s :
  ((m ≫= f) ≫= g) s = (m ≫= λ a, f a ≫= g) s.
Proof.
  unfold mbind, M_bind, andthen.
  destruct (m s) as [[x | a] s1 tr1]; cbn; [reflexivity |].
  destruct (f a s1) as [[x | c] s2 tr2]; cbn; [reflexivity |].
  by rewrite app_assoc.
Qed.

(** [try] around a computation that returns. *)
Lemma try_returned {A} (m : M E S A) h s a s' tr :
  m s = mkResult (inr a) s' tr → try_except m h s = mkResult (inr a) s' tr.
Proof. intros Hm. unfold try_except. by rewrite Hm. Qed.

(** [try] around a computation that raises what a clause handles. *)
Lemma try_handled {A} (m : M E S A) h s x s' tr (k : M E S A) :
  m s = mkResult (inl x) s' tr → h x = Some k →
  try_except m h s = after tr (k s').
Proof. intros Hm Hh. unfold try_except. by rewrite Hm; cbn; rewrite Hh. Qed.

Lemma try_handled_run {A} (m : M E S A) h s x s' tr (k : M E S A) v s'' tr' :
  m s = mkResult (inl x) s' tr → h x = Some k → k s' = mkResult v s'' tr' →
  try_except m h s = mkResult v s'' (tr ++ tr').
Proof. intros Hm Hh Hk. by rewrite (try_handled m h s x s' tr k), Hk. Qed.

(** [try] around a computation that raises what no clause handles. *)
Lemma try_escaped {A} (m : M E S A) h s x s' tr :
  m s = mkResult (inl x) s' tr → h x = None →
  try_except m h s = mkResult (inl x) s' tr.
Proof. intros Hm Hh. unfold try_except. by rewrite Hm; cbn; rewrite Hh. Qed.

Lemma res_value_after {A} tr (r : Result E S A) : res_value (after tr r) = res_value r.
Proof. reflexivity. Qed.

Lemma res_state_after {A} tr (r : Result E S A) : res_state (after tr r) = res_state r.
Proof. reflexivity. Qed.

Lemma res_calls_after {A} tr (r : Result E S A) :
  res_calls (after tr r) = tr ++ res_calls r.
Proof. reflexivity. Qed.

Lemma after_one {A} (ev : E) (v : Exn + A) s tr :
  after [ev] (mkResult v s tr) = mkResult v s (ev :: tr).
Proof. reflexivity. Qed.

Lemma returns_run {A} (a : A) s : @returns E S A a s = mkResult (inr a) s [].
Proof. reflexivity. Qed.

Lemma raise_run {A} (x : Exn) s : @raise E S A x s = mkResult (inl x) s [].
Proof. reflexivity. Qed.

Lemma gets_run {A} (f : S → A) s : @gets E S A f s = mkResult (inr (f s)) s [].
Proof. reflexivity. Qed.

Lemma modify_run (f : S → S) s : @modify E S f s = mkResult (inr tt) (f s) [].
Proof. reflexivity. Qed.

Lemma call_run (ev : E) s : call ev s = mkResult (inr tt) s [ev].
Proof. reflexivity. Qed.

End MonadFacts.

(** One step of a computation: the leading operation of a sequence is run
    and its continuation entered. *)
Ltac act_step :=
  first [ rewrite bind_assoc | rewrite bind_returns | rewrite bind_gets
        | rewrite bind_modify | rewrite bind_call | rewrite bind_raise ];
  cbv beta iota.

Ltac act := repeat act_step.

(** The result of the last operation of a sequence, written out. *)
Ltac finish :=
  rewrite ?returns_run, ?raise_run, ?gets_run, ?modify_run, ?call_run;
  rewrite ?after_one, ?after_result, ?app_nil_r.

(** ** The queue *)
Module QueueFacts.
Import Queue.

Lemma qsize_nonneg (q : t) : 0 ≤ qsize q.
Proof. unfold qsize. lia. Qed.

(** Case analysis on the comparisons of [norm_index]. *)
Ltac norm_cases :=
  unfold norm_index; cbv zeta;
  repeat match goal with
    | |- context [?a <? ?b] => destruct (Z.ltb_spec a b)
    | |- context [?a <=? ?b] => destruct (Z.leb_spec a b)
    end;
  cbn.

(** An index outside [-n, n-1] designates no position. *)
Lemma norm_index_out (n index : Z) :
  0 ≤ n → index < - n ∨ n ≤ index → norm_index n index = None.
Proof. intros Hn Hout. norm_cases; (reflexivity || lia). Qed.

(** An index of [0, n) designates itself. *)
Lemma norm_index_front (n index : Z) :
  0 ≤ index < n → norm_index n index = Some (Z.to_nat index).
Proof. intros Hin. norm_cases; (reflexivity || lia). Qed.

(** An index of [-n, -1] designates the position [n + index]. *)
Lemma norm_index_back (n index : Z) :
  - n ≤ index < 0 → norm_index n index = Some (Z.to_nat (index + n)).
Proof. intros Hin. norm_cases; (reflexivity || lia). Qed.

Lemma norm_index_lt (n index : Z) (i : nat) :
  norm_index n index = Some i → Z.of_nat i < n ∧ - n ≤ index < n.
Proof. norm_cases; intros [= <-]; lia. Qed.

Lemma remove_out (q : t) (index : Z) :
  index < - qsize q ∨ qsize q ≤ index →
  remove index q = mkResult (inl IndexError) q [].
Proof.
  intros Hout. unfold remove.
  rewrite norm_index_out; [reflexivity | apply qsize_nonneg | exact Hout].
Qed.

(** Deleting position [i] of a list takes out the element that stands there
    and nothing else. *)
Lemma delete_exactly (q : t) (i : nat) (x : Track) :
  q !! i = Some x →
  q = take i q ++ x :: drop (S i) q ∧ delete i q = take i q ++ drop (S i) q.
Proof.
  intros Hx. split.
  - symmetry. by apply take_drop_middle.
  - apply delete_take_drop.
Qed.

Lemma remove_at (q : t) (index : Z) (i : nat) :
  norm_index (qsize q) index = Some i →
  ∃ x, q !! i = Some x ∧
       remove index q = mkResult (inr tt) (take i q ++ drop (S i) q) [].
Proof.
  intros Hi. destruct (norm_index_lt _ _ _ Hi) as [Hlt _].
  unfold qsize in Hlt.
  destruct (lookup_lt_is_Some_2 q i) as [x Hx]; [lia |].
  exists x. split; [exact Hx |].
  unfold remove. rewrite Hi. unfold modify. cbv beta. by rewrite delete_take_drop.
Qed.

(** Every step of a schedule keeps what was enqueued: it is either popped
    or still in the queue, in the order of the enqueues. *)
Lemma step_conserves (s : Shared) (o : Op) :
  popped (step s o) ++ items (step s o) = popped s ++ items s ++ enqueued [o].
Proof.
  destruct o as [item | |]; cbn.
  - destruct (blocked s); cbn.
    + destruct (items s) as [| x q']; cbn; by rewrite <- ?app_assoc.
    + reflexivity.
  - destruct (blocked s); [by rewrite app_nil_r |].
    destruct (items s) as [| x q']; cbn; by rewrite <- ?app_assoc, ?app_nil_r.
  - by rewrite app_nil_r.
Qed.

Lemma enqueued_app (ops ops' : list Op) :
  enqueued (ops ++ ops') = enqueued ops ++ enqueued ops'.
Proof.
  induction ops as [| [item | |] ops IH]; cbn; by rewrite ?IH.
Qed.

Lemma run_conserves (ops : list Op) (s : Shared) :
  popped (run ops s) ++ items (run ops s) = popped s ++ items s ++ enqueued ops.
Proof.
  revert s. induction ops as [| o ops IH]; intros s.
  - cbn. by rewrite app_nil_r.
  - change (run (o :: ops) s) with (run ops (step s o)).
    rewrite IH, app_assoc, step_conserves.
    change (o :: ops) with ([o] ++ ops). rewrite enqueued_app.
    by rewrite <- !app_assoc.
Qed.

Lemma popped_prefix (ops : list Op) :
  popped (run ops fresh) = take (length (popped (run ops fresh))) (enqueued ops).
Proof.
  pose proof (run_conserves ops fresh) as Hc. cbn in Hc.
  rewrite <- Hc. by rewrite take_app_length.
Qed.

(** The position an index in range designates holds an element, and
    [remove] takes out that element and nothing else. *)
Lemma remove_in_range (q : t) (index : Z) :
  - qsize q ≤ index < qsize q →
  ∃ (i : nat) (x : Track),
    Z.of_nat i = (if index <? 0 then index + qsize q else index) ∧
    q !! i = Some x ∧
    q = take i q ++ x :: drop (S i) q ∧
    remove index q = mkResult (inr tt) (take i q ++ drop (S i) q) [].
Proof.
  intros Hin.
  assert (∃ i, norm_index (qsize q) index = Some i ∧
               Z.of_nat i = (if index <? 0 then index + qsize q else index))
    as (i & Hi & Hpos).
  { destruct (Z.ltb_spec index 0).
    - eexists. split; [apply norm_index_back; lia | lia].
    - eexists. split; [apply norm_index_front; lia | lia]. }
  destruct (remove_at q index i Hi) as (x & Hx & Hrm).
  exists i, x. repeat split; try assumption.
  by apply delete_exactly.
Qed.

(** C6: for every queue, [remove] at an index that is out of range, in
    particular at the index equal to the size of the queue, raises
    [IndexError] and leaves the queue as it was; at an index in range it
    removes exactly the element that index designates. *)
Theorem remove_index_error_or_exact (q : t) (index : Z) :
  (index < - qsize q ∨ qsize q ≤ index →
     remove index q = mkResult (inl IndexError) q []) ∧
  remove (qsize q) q = mkResult (inl IndexError) q [] ∧
  (- qsize q ≤ index < qsize q →
     ∃ (i : nat) (x : Track),
       Z.of_nat i = (if index <? 0 then index + qsize q else index) ∧
       q !! i = Some x ∧
       q = take i q ++ x :: drop (S i) q ∧
       remove index q = mkResult (inr tt) (take i q ++ drop (S i) q) []).
Proof.
  split; [apply remove_out |].
  split; [apply remove_out; right; lia |].
  apply remove_in_range.
Qed.

(** C10: on a queue of [n > 0] elements [remove] accepts the indices
    [-1] down to [-n], the index [-k] removing the [k]-th element from the
    end and [-1] the last one, and it raises [IndexError] exactly for the
    indices outside [-n, n-1]. *)
Theorem remove_negative_index (q : t) (index : Z) :
  q ≠ [] →
  (- qsize q ≤ index ≤ -1 →
     ∃ x, q !! Z.to_nat (qsize q + index) = Some x ∧
          remove index q =
            mkResult (inr tt) (delete (Z.to_nat (qsize q + index)) q) []) ∧
  (∃ x, q = take (length q - 1)%nat q ++ [x] ∧
        remove (-1) q = mkResult (inr tt) (take (length q - 1)%nat q) []) ∧
  (res_value (remove index q) = inl IndexError ↔
     index < - qsize q ∨ qsize q ≤ index).
Proof.
  intros Hne.
  assert (0 < qsize q) as Hpos.
  { unfold qsize. destruct q; [done | cbn; lia]. }
  split; [| split].
  - intros Hin.
    destruct (remove_at q index (Z.to_nat (qsize q + index))) as (x & Hx & Hrm).
    { rewrite norm_index_back by lia. do 2 f_equal. lia. }
    exists x. split; [exact Hx |]. by rewrite Hrm, delete_take_drop.
  - destruct (remove_at q (-1) (length q - 1)%nat) as (x & Hx & Hrm).
    { rewrite norm_index_back by lia. f_equal. unfold qsize. lia. }
    exists x.
    assert (drop (S (length q - 1)) q = []) as Hdrop.
    { apply drop_ge. unfold qsize in Hpos. lia. }
    rewrite Hdrop, app_nil_r in Hrm. split; [| exact Hrm].
    destruct (delete_exactly q _ x Hx) as [Hq _]. by rewrite Hdrop in Hq.
  - split.
    + intros Hraise.
      destruct (Z.lt_ge_cases index (- qsize q)); [by left |].
      destruct (Z.le_gt_cases (qsize q) index); [by right |].
      destruct (remove_in_range q index) as (i & x & _ & _ & _ & Hrm); [lia |].
      rewrite Hrm in Hraise. discriminate.
    + intros Hout. by rewrite remove_out.
Qed.

(** C5: in every schedule of enqueues and pops of the one consumer, on a
    queue that starts empty, the tracks the pops have returned are, in
    order, the first tracks that were enqueued, and what was enqueued and
    not yet popped waits in the queue in the order of the enqueues; after
    enqueuing [a], [b], [c] the first three pops return [a], [b], [c]. *)
Theorem pop_order_is_enqueue_order :
  (∀ ops : list Op,
     popped (run ops fresh) ++ items (run ops fresh) = enqueued ops ∧
     popped (run ops fresh) = take (length (popped (run ops fresh))) (enqueued ops)) ∧
  (∀ a b c : Track,
     popped (run [Enqueue a; Enqueue b; Enqueue c; Pop; Pop; Pop] fresh) = [a; b; c]) ∧
  (∀ (a b c : Track) (rest : list Op),
     take 3 (popped (run (Enqueue a :: Enqueue b :: Enqueue c :: rest) fresh))
       `prefix_of` [a; b; c]).
Proof.
  split; [| split].
  - intros ops. split; [apply (run_conserves ops fresh) | apply popped_prefix].
  - reflexivity.
  - intros a b c rest.
    rewrite popped_prefix. cbn [enqueued].
    set (n := length _). rewrite take_take.
    change (a :: b :: c :: enqueued rest) with ([a; b; c] ++ enqueued rest).
    rewrite take_app_le by (simpl length; lia).
    apply prefix_take.
Qed.

End QueueFacts.

(** ** The playback session *)

(** Reading a field of a session that a setter has just written. *)
Ltac fields :=
  cbn [queue menu _loop waiting updating now pause_votes resume_votes skip_votes
       shuffle_votes stop_votes clear_votes base
       set_queue set_menu set_loop set_waiting set_updating set_now
       set_pause_votes set_resume_votes set_skip_votes set_shuffle_votes
       set_stop_votes set_base].

Section SessionFacts.
Context {B : Type} `{NodePlayer B}.
Implicit Types (p : Player B) (e : Env).

Lemma scan_history_spec (ids : list nat) p :
  scan_history ids p =
    mkResult
      match ids, menu p with
      | [], _ => inr false
      | _ :: _, None => inl AttributeError
      | _ :: _, Some m =>
          match msg_message m with
          | None => inl AttributeError
          | Some mid => inr (bool_decide (mid ∈ ids))
          end
      end p [].
Proof.
  induction ids as [| i rest IH]; [reflexivity |].
  cbn [scan_history]. act.
  destruct (menu p) as [m |] eqn:Hm; [| reflexivity].
  destruct (msg_message m) as [mid |] eqn:Hmid; [| reflexivity].
  destruct (decide (i = mid)) as [-> | Hne].
  - rewrite bool_decide_true by done.
    rewrite bool_decide_true; [done | by apply elem_of_cons; left].
  - rewrite bool_decide_false by done. rewrite IH.
    destruct rest as [| j rest'].
    + rewrite bool_decide_false; [done |].
      rewrite elem_of_cons, elem_of_nil. intros [-> | []]. done.
    + do 2 f_equal. apply bool_decide_ext.
      rewrite (elem_of_cons _ mid i). split; [by right | by intros [-> |]].
Qed.

Lemma history_scan_spec e p :
  (ids ← channel_history e 10; scan_history ids) p =
    mkResult
      match recent e with
      | None => inl HTTPException
      | Some ids => scan_answer p (take 10 ids)
      end p [ChannelHistory 10].
Proof.
  unfold channel_history. act.
  destruct (recent e) as [ids |]; act; [| reflexivity].
  by rewrite scan_history_spec.
Qed.

Lemma is_menu_available_spec e p :
  is_menu_available e p = mkResult (inr (menu_seen e p)) p [ChannelHistory 10].
Proof.
  unfold is_menu_available, menu_seen.
  pose proof (history_scan_spec e p) as Hscan.
  destruct (recent e) as [ids |].
  - unfold scan_answer in Hscan.
    destruct (take 10 ids) as [| i rest] eqn:Hids.
    + rewrite (try_returned _ _ _ _ _ _ Hscan).
      destruct (menu p) as [m |]; [| reflexivity].
      destruct (msg_message m); [| reflexivity].
      rewrite bool_decide_false; [done | apply not_elem_of_nil].
    + destruct (menu p) as [m |].
      * destruct (msg_message m).
        -- by rewrite (try_returned _ _ _ _ _ _ Hscan).
        -- by rewrite (try_handled _ _ _ _ _ _ _ Hscan eq_refl).
      * by rewrite (try_handled _ _ _ _ _ _ _ Hscan eq_refl).
  - by rewrite (try_handled _ _ _ _ _ _ _ Hscan eq_refl).
Qed.

Lemma menu_delete_spec e p :
  menu_delete e p =
    match menu p with
    | None => mkResult (inl AttributeError) p []
    | Some m =>
        mkResult (if delete_fails e then inl HTTPException else inr tt) p
                 [MessageDelete m]
    end.
Proof.
  unfold menu_delete. act.
  destruct (menu p) as [m |]; [| reflexivity].
  act. by destruct (delete_fails e).
Qed.

Lemma destroy_spec e p :
  destroy e p =
    mkResult (if destroy_fails e then inl KeyError else inr tt)
             (set_base (destroy_on (destroy_fails e) (base p)) p) [NodeDestroy].
Proof. unfold destroy. act. by destruct (destroy_fails e). Qed.

Lemma menu_seen_set_updating e p v :
  menu_seen e (set_updating v p) = menu_seen e p.
Proof. reflexivity. Qed.

Lemma song_embed_set_updating p v :
  song_embed (set_updating v p) = song_embed p.
Proof. reflexivity. Qed.

Lemma set_updating_idle p :
  updating p = false → set_updating false (set_updating true p) = p.
Proof. intros Hidle. destruct p. cbn in *. by subst. Qed.

(** A refresh that finds another refresh under way does nothing. *)
Lemma songmenucontroller_busy e p :
  updating p = true → songmenucontroller e p = mkResult (inr tt) p [].
Proof. intros Hbusy. unfold songmenucontroller. act. by rewrite Hbusy. Qed.

(** A refresh of a session without a menu message sends one message and
    keeps it as the menu. *)
Lemma songmenucontroller_first e p :
  updating p = false → menu p = None →
  songmenucontroller e p =
    mkResult (inr tt) (set_menu (Some (sent e)) p)
             [ChannelSend (song_embed p) (sent e)].
Proof.
  intros Hidle Hnone. unfold songmenucontroller, make_song_embed, channel_send.
  act. rewrite Hidle. act. fields. rewrite Hnone. act.
  finish. rewrite song_embed_set_updating.
  f_equal. destruct p; cbn in *; by subst.
Qed.

(** A refresh of a session that has a menu message scans the history,
    deletes the menu message when the scan does not find it, and sends a
    message; the session is left as it was. *)
Lemma songmenucontroller_again e p m :
  updating p = false → menu p = Some m →
  songmenucontroller e p =
    mkResult (inr tt) p
      (ChannelHistory 10 ::
       (if menu_seen e p then []
        else MessageDelete m ::
             (if delete_fails e
              then [LogWarning "Failed to delete menu message: " (Some HTTPException)]
              else [])) ++
       [ChannelSend (song_embed p) (sent e)]).
Proof.
  intros Hidle Hsome.
  unfold songmenucontroller, make_song_embed, channel_send.
  act. rewrite Hidle. act. fields. rewrite Hsome. act.
  rewrite (bind_run _ _ _ _ _ _ (is_menu_available_spec e _)).
  rewrite menu_seen_set_updating.
  destruct (menu_seen e p); cbn [negb].
  - act. finish. by rewrite song_embed_set_updating, set_updating_idle.
  - pose proof (menu_delete_spec e (set_updating true p)) as Hdel.
    cbn [menu set_updating] in Hdel. rewrite Hsome in Hdel. act.
    destruct (delete_fails e).
    + rewrite (bind_run _ _ _ _ _ _
                 (try_handled_run _ on_stale_delete _ _ _ _ _ _ _ _ Hdel eq_refl eq_refl)).
      act. finish. by rewrite song_embed_set_updating, set_updating_idle.
    + rewrite (bind_run _ _ _ _ _ _ (try_returned _ on_stale_delete _ _ _ _ Hdel)).
      act. finish. by rewrite song_embed_set_updating, set_updating_idle.
Qed.

(** [teardown] returns whatever the delete and the release answer. *)
Lemma teardown_spec e p :
  teardown e p =
    mkResult (inr tt) (set_base (destroy_on (destroy_fails e) (base p)) p)
             (teardown_calls e p).
Proof.
  unfold teardown, teardown_calls.
  pose proof (menu_delete_spec e p) as Hdel.
  pose proof (destroy_spec e p) as Hrel.
  assert (try_except (destroy e) on_teardown_destroy p =
          mkResult (inr tt) (set_base (destroy_on (destroy_fails e) (base p)) p)
            (NodeDestroy ::
             (if destroy_fails e
              then [LogWarning "Failed to destroy player: " (Some KeyError)]
              else []))) as Hrelease.
  { destruct (destroy_fails e).
    - by rewrite (try_handled_run _ _ _ _ _ _ _ _ _ _ Hrel eq_refl eq_refl).
    - by rewrite (try_returned _ _ _ _ _ _ Hrel). }
  destruct (menu p) as [m |].
  - destruct (delete_fails e).
    + rewrite (bind_run _ _ _ _ _ _
                 (try_handled_run _ on_teardown_delete _ _ _ _ _ _ _ _ Hdel eq_refl eq_refl)).
      cbv beta. by rewrite Hrelease.
    + rewrite (bind_run _ _ _ _ _ _ (try_returned _ on_teardown_delete _ _ _ _ Hdel)).
      cbv beta. by rewrite Hrelease.
  - rewrite (bind_run _ _ _ _ _ _
               (try_handled_run _ on_teardown_delete _ _ _ _ _ _ _ _ Hdel eq_refl eq_refl)).
    cbv beta. by rewrite Hrelease.
Qed.

Lemma queue_get_spec e p :
  queue_get e p =
    match next_track e p with
    | Some (track, q') => mkResult (inr track) (set_queue q' p) [QueueGet idle_timeout]
    | None => mkResult (inl TimeoutError) p [QueueGet idle_timeout]
    end.
Proof.
  unfold queue_get, next_track. act.
  destruct (Queue.get_nowait (queue p)) as [[track q'] |]; [by act |].
  destruct (Queue.get_nowait (queue p ++ arrivals e)) as [[track q'] |]; by act.
Qed.

Lemma play_spec track p :
  play track p = mkResult (inr tt) (set_base (play_on track (base p)) p) [NodePlay track].
Proof. unfold play. by act. Qed.

Lemma clear_votes_for_new_song_spec p :
  clear_votes_for_new_song p = mkResult (inr tt) (cleared p) [].
Proof. unfold clear_votes_for_new_song. by act. Qed.

(** What a refresh leaves alone: everything but the menu handle. *)
Lemma songmenucontroller_frame e p :
  res_value (songmenucontroller e p) = inr tt ∧
  queue (res_state (songmenucontroller e p)) = queue p ∧
  _loop (res_state (songmenucontroller e p)) = _loop p ∧
  waiting (res_state (songmenucontroller e p)) = waiting p ∧
  updating (res_state (songmenucontroller e p)) = updating p ∧
  now (res_state (songmenucontroller e p)) = now p ∧
  base (res_state (songmenucontroller e p)) = base p.
Proof.
  destruct (updating p) eqn:Hbusy.
  - rewrite songmenucontroller_busy by done. cbn. by rewrite Hbusy.
  - destruct (menu p) as [m |] eqn:Hmenu.
    + rewrite (songmenucontroller_again e p m) by done. cbn. by rewrite Hbusy.
    + rewrite songmenucontroller_first by done. cbn. by rewrite Hbusy.
Qed.

(** A refresh leaves the six vote sets as they are. *)
Lemma songmenucontroller_votes e p :
  pause_votes (res_state (songmenucontroller e p)) = pause_votes p ∧
  resume_votes (res_state (songmenucontroller e p)) = resume_votes p ∧
  skip_votes (res_state (songmenucontroller e p)) = skip_votes p ∧
  shuffle_votes (res_state (songmenucontroller e p)) = shuffle_votes p ∧
  stop_votes (res_state (songmenucontroller e p)) = stop_votes p ∧
  clear_votes (res_state (songmenucontroller e p)) = clear_votes p.
Proof.
  destruct (updating p) eqn:Hbusy.
  - by rewrite songmenucontroller_busy.
  - destruct (menu p) as [m |] eqn:Hmenu.
    + by rewrite (songmenucontroller_again e p m).
    + by rewrite songmenucontroller_first.
Qed.

Lemma songmenucontroller_returns e p :
  songmenucontroller e p =
    mkResult (inr tt) (res_state (songmenucontroller e p))
             (res_calls (songmenucontroller e p)).
Proof.
  destruct (songmenucontroller_frame e p) as (Hv & _).
  destruct (songmenucontroller e p). cbn in *. by subst.
Qed.

(** [play_next_song] on a session that is playing or waiting. *)
Lemma play_next_song_guarded e p :
  is_playing (base p) || waiting p = true →
  play_next_song e p = mkResult (inr tt) p [].
Proof. intros Hguard. unfold play_next_song. act. by rewrite Hguard. Qed.

Lemma loop_cleared p : _loop (cleared p) = _loop p.
Proof. reflexivity. Qed.

Lemma next_track_waiting e p :
  next_track e (set_waiting true (cleared p)) = next_track e p.
Proof. reflexivity. Qed.

Lemma started_eq track q' p :
  set_waiting false
    (set_base
       (play_on (Some track)
          (base (set_now (Some track) (set_queue q' (set_waiting true (cleared p))))))
       (set_now (Some track) (set_queue q' (set_waiting true (cleared p)))))
  = started track q' p.
Proof. reflexivity. Qed.

Lemma loop_started track q' p : _loop (started track q' p) = _loop p.
Proof. reflexivity. Qed.

Lemma replay_eq p :
  set_base (play_on (now (cleared p)) (base (cleared p))) (cleared p)
  = set_base (play_on (now p) (base p)) (cleared p).
Proof. reflexivity. Qed.

Lemma now_cleared p : now (cleared p) = now p.
Proof. reflexivity. Qed.

Lemma teardown_waiting e p :
  teardown_calls e (set_waiting true (cleared p)) = teardown_calls e p.
Proof. reflexivity. Qed.

Lemma base_waiting p : base (set_waiting true (cleared p)) = base p.
Proof. reflexivity. Qed.

Lemma repeat_block_off e p :
  _loop p = false → repeat_block e p = mkResult (inr tt) p [].
Proof. intros Hloop. unfold repeat_block. act. by rewrite Hloop. Qed.

Lemma repeat_block_on e p :
  _loop p = true →
  repeat_block e p =
    after [NodePlay (now p)]
      (songmenucontroller e (set_base (play_on (now p) (base p)) p)).
Proof.
  intros Hloop. unfold repeat_block. act. rewrite Hloop. act.
  by rewrite (bind_run _ _ _ _ _ _ (play_spec _ _)).
Qed.

Lemma play_next_song_unfold e p :
  is_playing (base p) || waiting p = false →
  play_next_song e p =
    ((returned ← (if negb (_loop p) then try_block e else returns false);
      if (returned : bool) then returns tt else repeat_block e) (cleared p)).
Proof.
  intros Hguard. unfold play_next_song. act. rewrite Hguard.
  rewrite (bind_run _ _ _ _ _ _ (clear_votes_for_new_song_spec p)), after_nil.
  act. by rewrite loop_cleared.
Qed.

Lemma try_block_new e p track q' :
  next_track e p = Some (track, q') →
  try_block e (cleared p) =
    mkResult (inr false)
      (res_state (songmenucontroller e (started track q' p)))
      (QueueGet idle_timeout :: NodePlay (Some track) ::
       res_calls (songmenucontroller e (started track q' p))).
Proof.
  intros Hnext.
  pose proof (queue_get_spec e (set_waiting true (cleared p))) as Hget.
  rewrite next_track_waiting, Hnext in Hget.
  unfold try_block. apply try_returned. act.
  rewrite (bind_run _ _ _ _ _ _ Hget).
  act. rewrite (bind_run _ _ _ _ _ _ (play_spec _ _)).
  act. rewrite started_eq.
  rewrite (bind_run _ _ _ _ _ _ (songmenucontroller_returns e _)).
  act. finish. reflexivity.
Qed.

Lemma try_block_timeout e p :
  next_track e p = None →
  try_block e (cleared p) =
    mkResult (inr true)
      (set_base (destroy_on (destroy_fails e) (base p)) (set_waiting true (cleared p)))
      (QueueGet idle_timeout :: teardown_calls e p).
Proof.
  intros Hnext.
  pose proof (queue_get_spec e (set_waiting true (cleared p))) as Hget.
  rewrite next_track_waiting, Hnext in Hget.
  unfold try_block.
  rewrite (try_handled _ _ _ TimeoutError (set_waiting true (cleared p))
             [QueueGet idle_timeout] (teardown e;; returns true)).
  - rewrite (bind_run _ _ _ _ _ _ (teardown_spec e _)).
    rewrite teardown_waiting, base_waiting. finish. reflexivity.
  - act. by rewrite (bind_raised _ _ _ _ _ _ Hget).
  - reflexivity.
Qed.

(** [play_next_song] in loop mode: the votes are cleared, the track in
    [now] is played again and the menu refreshed. *)
Lemma play_next_song_loop e p :
  is_playing (base p) || waiting p = false → _loop p = true →
  play_next_song e p =
    after [NodePlay (now p)]
      (songmenucontroller e (set_base (play_on (now p) (base p)) (cleared p))).
Proof.
  intros Hguard Hloop. rewrite play_next_song_unfold by done.
  rewrite Hloop. cbn [negb]. act.
  rewrite repeat_block_on by (by rewrite loop_cleared).
  by rewrite replay_eq, now_cleared.
Qed.

(** [play_next_song] out of loop mode when the pop returns a track. *)
Lemma play_next_song_new e p track q' :
  is_playing (base p) || waiting p = false → _loop p = false →
  next_track e p = Some (track, q') →
  play_next_song e p =
    after [QueueGet idle_timeout; NodePlay (Some track)]
      (songmenucontroller e (started track q' p)).
Proof.
  intros Hguard Hloop Hnext.
  destruct (songmenucontroller_frame e (started track q' p)) as (Hv & _ & Hl & _).
  rewrite play_next_song_unfold by done.
  rewrite Hloop. cbn [negb].
  rewrite (bind_run _ _ _ _ _ _ (try_block_new e p track q' Hnext)).
  cbv beta iota.
  rewrite repeat_block_off by (by rewrite Hl, loop_started).
  finish. clear Hl. revert Hv.
  generalize (songmenucontroller e (started track q' p)). intros r Hv.
  unfold after. by rewrite Hv.
Qed.

(** [play_next_song] out of loop mode when the wait times out. *)
Lemma play_next_song_timeout e p :
  is_playing (base p) || waiting p = false → _loop p = false →
  next_track e p = None →
  play_next_song e p =
    mkResult (inr tt)
      (set_base (destroy_on (destroy_fails e) (base p)) (set_waiting true (cleared p)))
      (QueueGet idle_timeout :: teardown_calls e p).
Proof.
  intros Hguard Hloop Hnext.
  rewrite play_next_song_unfold by done.
  rewrite Hloop. cbn [negb].
  rewrite (bind_run _ _ _ _ _ _ (try_block_timeout e p Hnext)).
  cbv beta iota. finish. reflexivity.
Qed.

#[local] Opaque songmenucontroller teardown play_next_song.

Lemma guard_open p :
  is_playing (base p) = false → waiting p = false →
  is_playing (base p) || waiting p = false.
Proof. by intros -> ->. Qed.

Lemma sends_app (tr tr' : list Event) : sends (tr ++ tr') = sends tr ++ sends tr'.
Proof. apply omap_app. Qed.

Lemma plays_app (tr tr' : list Event) : plays (tr ++ tr') = plays tr ++ plays tr'.
Proof. apply omap_app. Qed.

Lemma pops_app (tr tr' : list Event) : pops (tr ++ tr') = pops tr ++ pops tr'.
Proof. apply omap_app. Qed.

Lemma sends_teardown_calls e p : sends (teardown_calls e p) = [].
Proof.
  unfold teardown_calls.
  destruct (menu p), (delete_fails e), (destroy_fails e); reflexivity.
Qed.

Lemma plays_teardown_calls e p : plays (teardown_calls e p) = [].
Proof.
  unfold teardown_calls.
  destruct (menu p), (delete_fails e), (destroy_fails e); reflexivity.
Qed.

(** What a refresh sends, edits, plays and pops, and what becomes of the
    handle. *)
Lemma songmenucontroller_menu e p :
  edits (res_calls (songmenucontroller e p)) = [] ∧
  plays (res_calls (songmenucontroller e p)) = [] ∧
  pops (res_calls (songmenucontroller e p)) = [] ∧
  sends (res_calls (songmenucontroller e p)) = (if updating p then [] else [sent e]) ∧
  menu (res_state (songmenucontroller e p)) =
    match menu p with
    | Some m => Some m
    | None => head (sends (res_calls (songmenucontroller e p)))
    end.
Proof.
  destruct (updating p) eqn:Hbusy.
  - rewrite songmenucontroller_busy by done. cbn. by destruct (menu p).
  - destruct (menu p) as [m |] eqn:Hmenu.
    + rewrite (songmenucontroller_again e p m) by done. cbn.
      rewrite Hmenu. by destruct (menu_seen e p), (delete_fails e).
    + by rewrite songmenucontroller_first by done.
Qed.

(** The clear vote set is touched by no path of [play_next_song]. *)
Lemma play_next_song_keeps_clear_votes e p :
  clear_votes (res_state (play_next_song e p)) = clear_votes p.
Proof.
  destruct (is_playing (base p) || waiting p) eqn:Hguard.
  { by rewrite play_next_song_guarded. }
  destruct (_loop p) eqn:Hloop.
  { rewrite play_next_song_loop by done. rewrite res_state_after.
    by destruct (songmenucontroller_votes e
                   (set_base (play_on (now p) (base p)) (cleared p)))
      as (_ & _ & _ & _ & _ & ->). }
  destruct (next_track e p) as [[track q'] |] eqn:Hnext.
  - rewrite (play_next_song_new e p track q') by done. rewrite res_state_after.
    by destruct (songmenucontroller_votes e (started track q' p))
      as (_ & _ & _ & _ & _ & ->).
  - by rewrite play_next_song_timeout by done.
Qed.

(** C3: on a session that is playing, or whose waiting flag is set,
    [play_next_song] returns at once: the session is the one it was, field by
    field, no call is issued and no pop of the queue is attempted. *)
Theorem play_next_song_noop_when_busy e p :
  is_playing (base p) = true ∨ waiting p = true →
  play_next_song e p = mkResult (inr tt) p [] ∧
  res_state (play_next_song e p) = p ∧
  pops (res_calls (play_next_song e p)) = [].
Proof.
  intros Hbusy.
  assert (is_playing (base p) || waiting p = true) as Hguard.
  { destruct Hbusy as [-> | ->]; [reflexivity | apply orb_true_r]. }
  by rewrite play_next_song_guarded.
Qed.

(** C1, as the code has it: [play_next_song] on a session that is neither
    playing nor waiting empties the pause, resume, skip, shuffle and stop
    vote sets on a loop repeat as it does on a new track; on the loop repeat
    the track in [now] is played again, no pop is attempted and the clear
    vote set keeps its contents. *)
Theorem play_next_song_clears_votes_on_repeat e p :
  is_playing (base p) = false → waiting p = false →
  (_loop p = true →
     pause_votes (res_state (play_next_song e p)) = ∅ ∧
     resume_votes (res_state (play_next_song e p)) = ∅ ∧
     skip_votes (res_state (play_next_song e p)) = ∅ ∧
     shuffle_votes (res_state (play_next_song e p)) = ∅ ∧
     stop_votes (res_state (play_next_song e p)) = ∅ ∧
     clear_votes (res_state (play_next_song e p)) = clear_votes p ∧
     plays (res_calls (play_next_song e p)) = [now p] ∧
     pops (res_calls (play_next_song e p)) = []) ∧
  (_loop p = false →
     ∀ track q', next_track e p = Some (track, q') →
       pause_votes (res_state (play_next_song e p)) = ∅ ∧
       resume_votes (res_state (play_next_song e p)) = ∅ ∧
       skip_votes (res_state (play_next_song e p)) = ∅ ∧
       shuffle_votes (res_state (play_next_song e p)) = ∅ ∧
       stop_votes (res_state (play_next_song e p)) = ∅ ∧
       now (res_state (play_next_song e p)) = Some track ∧
       waiting (res_state (play_next_song e p)) = false ∧
       plays (res_calls (play_next_song e p)) = [Some track]).
Proof.
  intros Hidle Hfree. pose proof (guard_open p Hidle Hfree) as Hguard.
  split.
  - intros Hloop.
    pose proof (play_next_song_keeps_clear_votes e p) as Hclear.
    rewrite play_next_song_loop in * by done.
    rewrite res_state_after, res_calls_after in *.
    rewrite plays_app, pops_app.
    destruct (songmenucontroller_votes e
                (set_base (play_on (now p) (base p)) (cleared p)))
      as (-> & -> & -> & -> & -> & _).
    destruct (songmenucontroller_menu e
                (set_base (play_on (now p) (base p)) (cleared p)))
      as (_ & -> & -> & _).
    by rewrite Hclear.
  - intros Hloop track q' Hnext.
    rewrite (play_next_song_new e p track q') by done.
    rewrite res_state_after, res_calls_after, plays_app.
    destruct (songmenucontroller_frame e (started track q' p))
      as (_ & _ & _ & -> & _ & -> & _).
    destruct (songmenucontroller_votes e (started track q' p))
      as (-> & -> & -> & -> & -> & _).
    by destruct (songmenucontroller_menu e (started track q' p)) as (_ & -> & _).
Qed.

(** C4: when [play_next_song] runs its non-loop path and the pop times out
    (the queue is empty and no track arrives within the 120 seconds), it
    tears the session down and returns: the menu message is deleted when
    there is one, the node is released, a failure of either is logged and
    goes no further, and no play request is issued. *)
Theorem idle_timeout_tears_down e p :
  is_playing (base p) = false → waiting p = false → _loop p = false →
  queue p = [] → arrivals e = [] →
  res_value (play_next_song e p) = inr tt ∧
  res_calls (play_next_song e p) = QueueGet 120 :: teardown_calls e p ∧
  plays (res_calls (play_next_song e p)) = [] ∧
  NodeDestroy ∈ res_calls (play_next_song e p) ∧
  (∀ m, menu p = Some m → MessageDelete m ∈ res_calls (play_next_song e p)) ∧
  base (res_state (play_next_song e p)) = destroy_on (destroy_fails e) (base p) ∧
  now (res_state (play_next_song e p)) = now p.
Proof.
  intros Hidle Hfree Hloop Hempty Hnone.
  assert (next_track e p = None) as Hnext.
  { unfold next_track. by rewrite Hempty, Hnone. }
  rewrite play_next_song_timeout by auto using guard_open.
  cbn [res_value res_state res_calls].
  repeat split.
  - apply plays_teardown_calls.
  - apply elem_of_cons. right. unfold teardown_calls.
    apply elem_of_app. right. apply elem_of_cons. by left.
  - intros m Hm. apply elem_of_cons. right. unfold teardown_calls.
    rewrite Hm. apply elem_of_app. left. apply elem_of_cons. by left.
Qed.


(** Every invocation keeps a handle that is set, and sets an unset handle
    to the first message it creates, if it creates one. *)
Lemma invoke_menu (i : Invocation) p :
  menu (res_state (invoke i p)) =
    match menu p with
    | Some m => Some m
    | None => head (sends (res_calls (invoke i p)))
    end.
Proof.
  destruct i as [e | e | e | value | item | f]; cbn [invoke].
  - destruct (is_playing (base p) || waiting p) eqn:Hguard.
    { rewrite play_next_song_guarded by done.
      cbn [res_state res_calls]. by destruct (menu p). }
    destruct (_loop p) eqn:Hloop.
    { rewrite play_next_song_loop by done.
      rewrite res_state_after, res_calls_after, sends_app.
      by destruct (songmenucontroller_menu e
                     (set_base (play_on (now p) (base p)) (cleared p)))
        as (_ & _ & _ & _ & ->). }
    destruct (next_track e p) as [[track q'] |] eqn:Hnext.
    + rewrite (play_next_song_new e p track q') by done.
      rewrite res_state_after, res_calls_after, sends_app.
      by destruct (songmenucontroller_menu e (started track q' p))
        as (_ & _ & _ & _ & ->).
    + rewrite play_next_song_timeout by done.
      cbn [res_state res_calls]. unfold cleared. fields.
      change (QueueGet idle_timeout :: teardown_calls e p)
        with ([QueueGet idle_timeout] ++ teardown_calls e p).
      rewrite sends_app, sends_teardown_calls. by destruct (menu p).
  - by destruct (songmenucontroller_menu e p) as (_ & _ & _ & _ & ->).
  - rewrite teardown_spec. cbn [res_state res_calls]. fields.
    rewrite sends_teardown_calls. by destruct (menu p).
  - cbn. by destruct (menu p).
  - cbn. by destruct (menu p).
  - cbn. by destruct (menu p).
Qed.

Lemma live_menu (acts : list Invocation) p (tr : list Event) :
  menu p = head (sends tr) →
  menu (fst (live acts p tr)) = head (sends (snd (live acts p tr))).
Proof.
  revert p tr. induction acts as [| i acts IH]; intros p tr Hinv; [done |].
  cbn [live]. apply IH.
  rewrite invoke_menu, sends_app, Hinv.
  destruct (sends tr); reflexivity.
Qed.

(** C9: a refresh assigns the handle only when the session has none, and
    then to the message it has just created; a refresh of a session that has
    a handle sends its replacement and leaves the handle as it is, whether
    the scan found the old message or not.  Hence, through every life of a
    session, the handle is the first message ever created for it (and unset
    as long as none was). *)
Theorem menu_handle_is_first_message :
  (∀ e p m, menu p = Some m →
     menu (res_state (songmenucontroller e p)) = Some m) ∧
  (∀ e p, menu p = None → updating p = false →
     menu (res_state (songmenucontroller e p)) = Some (sent e) ∧
     sends (res_calls (songmenucontroller e p)) = [sent e]) ∧
  (∀ e p m, menu p = Some m → updating p = false →
     sends (res_calls (songmenucontroller e p)) = [sent e] ∧
     menu (res_state (songmenucontroller e p)) = Some m) ∧
  (∀ (b : B) (acts : list Invocation),
     menu (fst (live acts (init b) [])) = head (sends (snd (live acts (init b) [])))).
Proof.
  split; [| split; [| split]].
  - intros e p m Hm.
    destruct (songmenucontroller_menu e p) as (_ & _ & _ & _ & ->). by rewrite Hm.
  - intros e p Hnone Hidle. by rewrite songmenucontroller_first.
  - intros e p m Hm Hidle.
    destruct (songmenucontroller_menu e p) as (_ & _ & _ & -> & ->).
    by rewrite Hm, Hidle.
  - intros b acts. by apply live_menu.
Qed.

End SessionFacts.
(** ** The session on the concrete node *)
Module SessionExamples.
Import Sample.

Lemma play_next_song_noop_when_busy_witness :
  play_next_song (quiet first_message) parked = mkResult (inr tt) parked [] ∧
  res_state (play_next_song (quiet first_message) parked) = parked ∧
  pops (res_calls (play_next_song (quiet first_message) parked)) = [].
Proof.
  apply (play_next_song_noop_when_busy (quiet first_message) parked).
  right. reflexivity.
Defined.

(** C1, counterexample: a session in loop mode, neither playing nor
    waiting, with a skip vote pending; after the repeat the skip vote set is
    empty, so the six vote sets are not what they were. *)
Lemma loop_repeat_clears_pending_votes :
  _loop looping = true ∧ is_playing (base looping) = false ∧
  waiting looping = false ∧
  plays (res_calls (play_next_song (quiet second_message) looping)) = [Some song_a] ∧
  (7%nat ∈ skip_votes looping) ∧
  (7%nat ∉ skip_votes (res_state (play_next_song (quiet second_message) looping))) ∧
  votes (res_state (play_next_song (quiet second_message) looping)) ≠ votes looping.
Proof.
  assert (7%nat ∈ skip_votes looping) as Hin.
  { apply (bool_decide_unpack _). by vm_compute. }
  assert (7%nat ∉ skip_votes (res_state (play_next_song (quiet second_message) looping)))
    as Hout.
  { apply (bool_decide_unpack _). by vm_compute. }
  split; [by vm_compute |]. split; [by vm_compute |]. split; [by vm_compute |].
  split; [by vm_compute |]. split; [exact Hin |]. split; [exact Hout |].
  intros Heq. apply (f_equal (λ l, nth 2 l ∅)) in Heq.
  unfold votes in Heq. cbn [nth] in Heq.
  apply Hout. rewrite Heq. exact Hin.
Qed.

Lemma play_next_song_clears_votes_on_repeat_witness :
  skip_votes (res_state (play_next_song (quiet second_message) looping)) = ∅ ∧
  clear_votes (res_state (play_next_song (quiet second_message) looping))
    = clear_votes looping ∧
  pause_votes (res_state (play_next_song (quiet first_message) voted)) = ∅ ∧
  now (res_state (play_next_song (quiet first_message) voted)) = Some song_a.
Proof.
  assert (is_playing (base looping) = false) as Hidle by (vm_compute; reflexivity).
  assert (is_playing (base voted) = false) as Hidle' by (vm_compute; reflexivity).
  destruct (play_next_song_clears_votes_on_repeat (quiet second_message) looping
              Hidle eq_refl) as [Hrepeat _].
  destruct (Hrepeat eq_refl) as (_ & _ & Hskip & _ & _ & Hclear & _).
  destruct (play_next_song_clears_votes_on_repeat (quiet first_message) voted
              Hidle' eq_refl) as [_ Hnew].
  destruct (Hnew eq_refl song_a [] eq_refl) as (Hpause & _ & _ & _ & _ & Hnow & _).
  exact (conj Hskip (conj Hclear (conj Hpause Hnow))).
Defined.

(** C2, on the code: a session with one queued track and a voter in its
    clear vote set; [play_next_song] pops the track and starts it, the
    pause, resume, skip, shuffle and stop vote sets are empty afterwards, and
    the clear vote set still holds its voter. *)
Theorem new_track_keeps_clear_votes :
  let r := play_next_song (quiet first_message) voted in
  plays (res_calls r) = [Some song_a] ∧
  now (res_state r) = Some song_a ∧
  size (pause_votes (res_state r)) = 0%nat ∧
  size (resume_votes (res_state r)) = 0%nat ∧
  size (skip_votes (res_state r)) = 0%nat ∧
  size (shuffle_votes (res_state r)) = 0%nat ∧
  size (stop_votes (res_state r)) = 0%nat ∧
  size (clear_votes (res_state r)) = 1%nat ∧
  (3%nat ∈ clear_votes (res_state r)).
Proof.
  cbv zeta. repeat split; by vm_compute.
Qed.

Lemma idle_timeout_tears_down_witness :
  res_value (play_next_song (quiet first_message) (init idle_node)) = inr tt ∧
  res_calls (play_next_song (quiet first_message) (init idle_node))
    = QueueGet 120 :: teardown_calls (quiet first_message) (init idle_node) ∧
  plays (res_calls (play_next_song (quiet first_message) (init idle_node))) = [] ∧
  NodeDestroy ∈ res_calls (play_next_song (quiet first_message) (init idle_node)) ∧
  (∀ m, menu (init idle_node) = Some m →
        MessageDelete m
          ∈ res_calls (play_next_song (quiet first_message) (init idle_node))) ∧
  base (res_state (play_next_song (quiet first_message) (init idle_node)))
    = destroy_on false idle_node ∧
  now (res_state (play_next_song (quiet first_message) (init idle_node))) = None.
Proof.
  apply (idle_timeout_tears_down (quiet first_message) (init idle_node));
    vm_compute; reflexivity.
Defined.



Lemma menu_handle_is_first_message_witness :
  menu (res_state (songmenucontroller (quiet second_message) looping))
    = Some first_message ∧
  menu (res_state (songmenucontroller (quiet first_message) (init idle_node)))
    = Some first_message.
Proof.
  destruct (@menu_handle_is_first_message Node _) as (Hkeep & Hset & _).
  split.
  - exact (Hkeep (quiet second_message) looping first_message eq_refl).
  - exact (proj1 (Hset (quiet first_message) (init idle_node) eq_refl eq_refl)).
Defined.

End SessionExamples.

(** ** The queue on concrete tracks *)
Module QueueExamples.
Import Queue Sample.

Lemma remove_index_error_or_exact_witness :
  remove 2 [song_a; song_b] = mkResult (inl IndexError) [song_a; song_b] [] ∧
  ∃ (i : nat) (x : Track),
    Z.of_nat i = 1 ∧ [song_a; song_b] !! i = Some x ∧
    [song_a; song_b] = take i [song_a; song_b] ++ x :: drop (S i) [song_a; song_b] ∧
    remove 1 [song_a; song_b]
      = mkResult (inr tt) (take i [song_a; song_b] ++ drop (S i) [song_a; song_b]) [].
Proof.
  split.
  - apply (proj1 (QueueFacts.remove_index_error_or_exact [song_a; song_b] 2)).
    right. unfold qsize. simpl length. lia.
  - apply (proj2 (proj2 (QueueFacts.remove_index_error_or_exact [song_a; song_b] 1))).
    unfold qsize. simpl length. lia.
Defined.

Lemma remove_negative_index_witness :
  (∃ x, [song_a; song_b] !! Z.to_nat (qsize [song_a; song_b] + -2) = Some x ∧
        remove (-2) [song_a; song_b] =
          mkResult (inr tt)
            (delete (Z.to_nat (qsize [song_a; song_b] + -2)) [song_a; song_b]) []) ∧
  ∃ x, [song_a; song_b] = take (length [song_a; song_b] - 1)%nat [song_a; song_b] ++ [x] ∧
       remove (-1) [song_a; song_b]
         = mkResult (inr tt) (take (length [song_a; song_b] - 1)%nat [song_a; song_b]) [].
Proof.
  assert ([song_a; song_b] ≠ []) as Hne by discriminate.
  destruct (QueueFacts.remove_negative_index [song_a; song_b] (-2) Hne)
    as (Hback & Hlast & _).
  split; [apply Hback; unfold qsize; simpl length; lia | exact Hlast].
Defined.

End QueueExamples.

(** ** Launching the node *)
Module ProcessFacts.
Import Process.

Lemma subprocess_run_unchecked args shell answer s :
  subprocess_run args shell false answer s = mkResult (inr answer) s [Run args shell].
Proof. unfold subprocess_run. act. by finish. Qed.

(** [run_lavalink_process] when [which] does not find the program. *)
Lemma run_lavalink_process_absent (e : Env) :
  returncode (which e) ≠ 0 →
  run_lavalink_process e tt =
    mkResult (inr tt) tt
      [Run ["which"; BaseProgram] false;
       Log Error ("Sorry, " +:+ BaseProgram +:+
                  " is not installed in your system. Please install it in order to run Lavalink.");
       Print (stdout (which e))].
Proof.
  intros Hrc. unfold run_lavalink_process.
  rewrite (bind_run _ _ _ _ _ _ (subprocess_run_unchecked _ _ _ _)).
  destruct (Z.eqb_spec (returncode (which e)) 0); [done |].
  act. by finish.
Qed.

(** [run_lavalink_process] when [which] finds the program. *)
Lemma run_lavalink_process_present (e : Env) :
  returncode (which e) = 0 →
  ∃ before after,
    run_lavalink_process e tt =
      mkResult (inr tt) tt (before ++ Run [bash_command] true :: after) ∧
    launches before = 0%nat ∧ launches after = 0%nat.
Proof.
  intros Hrc.
  exists [Run ["which"; BaseProgram] false;
          Log Success ("The program " +:+ dquote +:+ BaseProgram +:+ dquote
                       +:+ " is installed. Lavalink can be run.");
          Log Info ("The location of " +:+ BaseProgram +:+ " is: " +:+ stdout (which e))].
  exists ((if returncode (launch e) =? 0 then [Log Success "Lavalink is running."] else [])
          ++ (if returncode (launch e) =? -2 then []
              else [Log Error ("Lavalink is not running. Error: " +:+ stdout (launch e))])).
  split; [| split].
  - unfold run_lavalink_process.
    rewrite (bind_run _ _ _ _ _ _ (subprocess_run_unchecked _ _ _ _)).
    rewrite Hrc. cbv beta iota. change (0 =? 0) with true. cbv iota. act.
    rewrite (bind_run _ _ _ _ _ _ (subprocess_run_unchecked _ _ _ _)).
    destruct (returncode (launch e) =? 0), (returncode (launch e) =? -2);
      act; by finish.
  - reflexivity.
  - by destruct (returncode (launch e) =? 0), (returncode (launch e) =? -2).
Qed.

Lemma launches_app (tr tr' : list Event) :
  launches (tr ++ tr') = (launches tr + launches tr')%nat.
Proof. unfold launches. by rewrite filter_app, length_app. Qed.

(** C8: when [which] does not find java, the launch routine logs the
    error that tells the host to install it and never runs the launch
    command; when [which] finds it, the routine runs the launch command
    exactly once, whatever its exit status; in both cases the routine and
    the thread starter return without raising. *)
Theorem node_launch_checked_once (e : Env) :
  res_value (run_lavalink_process e tt) = inr tt ∧
  res_value (lavalink_alive e tt) = inr tt ∧
  (returncode (which e) ≠ 0 →
     launches (res_calls (run_lavalink_process e tt)) = 0%nat ∧
     launches (res_calls (lavalink_alive e tt)) = 0%nat ∧
     Log Error ("Sorry, " +:+ BaseProgram +:+
                " is not installed in your system. Please install it in order to run Lavalink.")
       ∈ res_calls (run_lavalink_process e tt)) ∧
  (returncode (which e) = 0 →
     launches (res_calls (run_lavalink_process e tt)) = 1%nat ∧
     launches (res_calls (lavalink_alive e tt)) = 1%nat).
Proof.
  destruct (Z.eq_dec (returncode (which e)) 0) as [Hrc | Hrc].
  - destruct (run_lavalink_process_present e Hrc) as (before & after & Hrun & Hb & Ha).
    unfold lavalink_alive. rewrite Hrun. cbn [res_value res_calls].
    repeat split; try done.
    + rewrite launches_app, Hb.
      change (Run [bash_command] true :: after)
        with ([Run [bash_command] true] ++ after).
      by rewrite launches_app, Ha.
    + change (ThreadStart :: before ++ Run [bash_command] true :: after)
        with ([ThreadStart] ++ before ++ [Run [bash_command] true] ++ after).
      by rewrite !launches_app, Hb, Ha.
  - unfold lavalink_alive. rewrite (run_lavalink_process_absent e Hrc).
    cbn [res_value res_calls].
    repeat split; try done.
    apply elem_of_cons. right. apply elem_of_cons. by left.
Qed.

Lemma node_launch_checked_once_witness :
  launches (res_calls (run_lavalink_process
                         (mkEnv (mkCompleted 1 EmptyString) (mkCompleted 0 EmptyString)) tt))
    = 0%nat ∧
  launches (res_calls (run_lavalink_process
                         (mkEnv (mkCompleted 0 "/usr/bin/java") (mkCompleted 1 "Error")) tt))
    = 1%nat.
Proof.
  split.
  - apply (node_launch_checked_once
             (mkEnv (mkCompleted 1 EmptyString) (mkCompleted 0 EmptyString))).
    discriminate.
  - apply (node_launch_checked_once
             (mkEnv (mkCompleted 0 "/usr/bin/java") (mkCompleted 1 "Error"))).
    reflexivity.
Defined.

End ProcessFacts.

(** * Further properties *)

Module QueueViewFacts.
Import Queue QueueView.







End QueueViewFacts.

Module QueueIndexFacts.
Import Queue QueueFacts.

Lemma getitem_at (q : t) (index : Z) (i : nat) (x : Track) :
  norm_index (qsize q) index = Some i → q !! i = Some x →
  getitem index q = mkResult (inr x) q [].
Proof. intros Hi Hx. unfold getitem. by rewrite Hi, Hx. Qed.

Lemma qsize_app (q q' : t) : qsize (q ++ q') = qsize q + qsize q'.
Proof. unfold qsize. rewrite length_app. lia. Qed.

(** X4: indexing and removal read an index the same way.  At an index in
    [-n, n-1] the track [q[index]] is returned without touching the queue,
    and it is the very track [remove(index)] takes out; at any other index
    [q[index]] raises [IndexError], as [remove] does. *)
Theorem getitem_agrees_with_remove (q : t) (index : Z) :
  (- qsize q ≤ index < qsize q →
     ∃ (x : Track) (before behind : list Track),
       q = before ++ x :: behind ∧
       Z.of_nat (length before) = (if index <? 0 then index + qsize q else index) ∧
       getitem index q = mkResult (inr x) q [] ∧
       remove index q = mkResult (inr tt) (before ++ behind) []) ∧
  (index < - qsize q ∨ qsize q ≤ index →
     getitem index q = mkResult (inl IndexError) q [] ∧
     remove index q = mkResult (inl IndexError) q []).
Proof.
  split.
  - intros Hin.
    destruct (remove_in_range q index Hin) as (i & x & Hpos & Hx & Hq & Hrm).
    exists x, (take i q), (drop (S i) q).
    assert (i < length q)%nat as Hlt by (by apply lookup_lt_Some in Hx).
    split; [exact Hq |]. split; [by rewrite length_take_le by lia |].
    split; [| exact Hrm].
    apply (getitem_at q index i x); [| exact Hx].
    destruct (Z.ltb_spec index 0).
    + rewrite norm_index_back by lia. f_equal. lia.
    + rewrite norm_index_front by lia. f_equal. lia.
  - intros Hout. split; [| by apply remove_out].
    unfold getitem. by rewrite norm_index_out by (apply qsize_nonneg || done).
Qed.

(** X5: enqueuing then removing the last track is a round trip.  After
    [put_nowait(x)] the queue is one longer, [q[-1]] is [x], the tracks that
    were queued keep their indices, and [remove(-1)] gives back the queue as
    it was. *)
Theorem put_then_remove_last (q : t) (x : Track) :
  qsize (res_state (put_nowait x q)) = qsize q + 1 ∧
  getitem (-1) (res_state (put_nowait x q))
    = mkResult (inr x) (res_state (put_nowait x q)) [] ∧
  remove (-1) (res_state (put_nowait x q)) = mkResult (inr tt) q [] ∧
  (∀ (i : nat) (y : Track), q !! i = Some y →
     getitem (Z.of_nat i) (res_state (put_nowait x q))
       = mkResult (inr y) (res_state (put_nowait x q)) []).
Proof.
  change (res_state (put_nowait x q)) with (q ++ [x]).
  assert (qsize (q ++ [x]) = qsize q + 1) as Hsize by apply qsize_app.
  pose proof (qsize_nonneg q) as Hpos.
  assert (norm_index (qsize (q ++ [x])) (-1) = Some (length q)) as Hlast.
  { rewrite norm_index_back by lia. f_equal. unfold qsize in *. lia. }
  split; [exact Hsize |]. split; [| split].
  - apply (getitem_at _ _ (length q)); [exact Hlast |].
    by rewrite lookup_app_r, Nat.sub_diag.
  - unfold remove. rewrite Hlast. unfold modify. f_equal.
    rewrite delete_take_drop, take_app_length.
    rewrite drop_ge by (rewrite length_app; cbn; lia).
    apply app_nil_r.
  - intros i y Hy.
    assert (i < length q)%nat as Hlt by (by apply lookup_lt_Some in Hy).
    apply (getitem_at _ _ i).
    + rewrite norm_index_front by (unfold qsize in *; lia). f_equal. lia.
    + by apply lookup_app_l_Some.
Qed.

End QueueIndexFacts.

(** ** The session, further *)
Section SessionMore.
Context {B : Type} `{NodePlayer B}.
Implicit Types (p : Player B) (e : Env).

#[local] Opaque songmenucontroller teardown play_next_song.

Lemma pops_teardown_calls e p : pops (teardown_calls e p) = [].
Proof.
  unfold teardown_calls.
  destruct (menu p), (delete_fails e), (destroy_fails e); reflexivity.
Qed.

Lemma edits_teardown_calls e p : edits (teardown_calls e p) = [].
Proof.
  unfold teardown_calls.
  destruct (menu p), (delete_fails e), (destroy_fails e); reflexivity.
Qed.


(** While the waiting flag is set, no invocation asks the node to play,
    pops the queue or clears the flag. *)
Lemma invoke_while_waiting (i : Invocation) p :
  waiting p = true →
  waiting (res_state (invoke i p)) = true ∧
  plays (res_calls (invoke i p)) = [] ∧
  pops (res_calls (invoke i p)) = [].
Proof.
  intros Hwait. destruct i as [e | e | e | value | item | f]; cbn [invoke].
  - rewrite play_next_song_guarded by (rewrite Hwait; apply orb_true_r).
    cbn [res_state res_calls]. by rewrite Hwait.
  - destruct (songmenucontroller_frame e p) as (_ & _ & _ & -> & _).
    by destruct (songmenucontroller_menu e p) as (_ & -> & -> & _).
  - rewrite teardown_spec. cbn [res_state res_calls]. fields.
    by rewrite plays_teardown_calls, pops_teardown_calls.
  - by cbn.
  - by cbn.
  - by cbn.
Qed.

Lemma live_while_waiting (acts : list Invocation) p (tr : list Event) :
  waiting p = true → plays tr = [] → pops tr = [] →
  waiting (fst (live acts p tr)) = true ∧
  plays (snd (live acts p tr)) = [] ∧
  pops (snd (live acts p tr)) = [].
Proof.
  revert p tr. induction acts as [| i acts IH]; intros p tr Hwait Hplays Hpops.
  { done. }
  cbn [live]. destruct (invoke_while_waiting i p Hwait) as (Hw & Hp & Hq).
  apply IH; [done | |].
  - by rewrite plays_app, Hplays, Hp.
  - by rewrite pops_app, Hpops, Hq.
Qed.

(** X7: the idle timeout leaves the waiting flag set.  After
    [play_next_song] has timed out on the empty queue, the session never
    plays again: through every later life (tracks enqueued, completions,
    refreshes, further calls of [play_next_song]) no play request is issued
    and no pop attempted, because every later [play_next_song] finds the
    flag set and returns. *)
Theorem session_stuck_after_idle_timeout e p (acts : list Invocation) :
  is_playing (base p) = false → waiting p = false → _loop p = false →
  queue p = [] → arrivals e = [] →
  waiting (res_state (play_next_song e p)) = true ∧
  waiting (fst (live acts (res_state (play_next_song e p)) [])) = true ∧
  plays (snd (live acts (res_state (play_next_song e p)) [])) = [] ∧
  pops (snd (live acts (res_state (play_next_song e p)) [])) = [].
Proof.
  intros Hidle Hfree Hloop Hempty Hnone.
  assert (next_track e p = None) as Hnext.
  { unfold next_track. by rewrite Hempty, Hnone. }
  assert (waiting (res_state (play_next_song e p)) = true) as Hwait.
  { by rewrite play_next_song_timeout by auto using guard_open. }
  split; [exact Hwait |]. by apply live_while_waiting.
Qed.



(** X9: [teardown] is best effort and does not forget the menu.  Whatever
    the delete and the release answer, it returns normally, asks the node
    for exactly one release, deletes nothing but the menu message, sends and
    plays nothing, and changes no attribute of the session but the base
    player; the menu handle stays set, so a second [teardown] tries to
    delete the same message again. *)
Theorem teardown_best_effort e p :
  res_value (teardown e p) = inr tt ∧
  res_state (teardown e p) = set_base (destroy_on (destroy_fails e) (base p)) p ∧
  menu (res_state (teardown e p)) = menu p ∧
  releases (res_calls (teardown e p)) = 1%nat ∧
  deletes (res_calls (teardown e p)) = option_list (menu p) ∧
  sends (res_calls (teardown e p)) = [] ∧
  plays (res_calls (teardown e p)) = [] ∧
  (∀ e', deletes (res_calls (teardown e' (res_state (teardown e p))))
           = option_list (menu p)).
Proof.
  assert (∀ e0 p0, deletes (teardown_calls e0 p0) = option_list (menu p0)) as Hdel.
  { intros e0 p0. unfold teardown_calls.
    by destruct (menu p0) as [m0 |], (delete_fails e0), (destroy_fails e0). }
  rewrite !teardown_spec. cbn [res_value res_state res_calls].
  split; [done |]. split; [done |]. split; [done |].
  split; [| split; [apply Hdel | split; [apply sends_teardown_calls |
                                         split; [apply plays_teardown_calls |]]]].
  - unfold teardown_calls.
    by destruct (menu p), (delete_fails e), (destroy_fails e).
  - intros e'. rewrite teardown_spec. cbn [res_calls]. by rewrite Hdel.
Qed.

(** X10: [is_menu_available] always answers, changes nothing and asks the
    channel once, for its ten newest messages.  It answers [True] exactly
    when the id read through [self.menu.message] is among those ten: a
    failed history request, a session without menu, a menu object without
    the attribute [message] and a menu further back than ten messages all
    give [False]. *)
Theorem is_menu_available_answers e p :
  res_state (is_menu_available e p) = p ∧
  res_calls (is_menu_available e p) = [ChannelHistory 10] ∧
  ∃ answer : bool,
    res_value (is_menu_available e p) = inr answer ∧
    (answer = true ↔
       ∃ m mid ids, menu p = Some m ∧ msg_message m = Some mid ∧
                    recent e = Some ids ∧ mid ∈ take 10 ids).
Proof.
  rewrite is_menu_available_spec. cbn [res_value res_state res_calls].
  split; [done |]. split; [done |].
  exists (menu_seen e p). split; [done |].
  unfold menu_seen.
  destruct (recent e) as [ids |] eqn:Hrecent; [| split; [done |]; by intros (? & ? & ? & _ & _ & ? & _)].
  destruct (menu p) as [m |] eqn:Hmenu; [| split; [done |]; by intros (? & ? & ? & ? & _)].
  destruct (msg_message m) as [mid |] eqn:Hmid.
  - rewrite bool_decide_eq_true. split; [intros Hin; by exists m, mid, ids |].
    intros (m' & mid' & ids' & [= <-] & Hmid' & [= <-] & Hin).
    rewrite Hmid in Hmid'. by injection Hmid' as <-.
  - split; [done |]. intros (m' & mid' & ids' & [= <-] & Hmid' & _).
    by rewrite Hmid in Hmid'.
Qed.



Lemma live_trace (acts : list Invocation) p (tr : list Event) :
  fst (live acts p tr) = fst (live acts p []) ∧
  snd (live acts p tr) = tr ++ snd (live acts p []).
Proof.
  revert p tr. induction acts as [| i acts IH]; intros p tr.
  { cbn. by rewrite app_nil_r. }
  cbn [live]. destruct (IH (res_state (invoke i p)) (tr ++ res_calls (invoke i p)))
    as [-> ->].
  destruct (IH (res_state (invoke i p)) ([] ++ res_calls (invoke i p)))
    as [-> ->].
  by rewrite app_nil_l, app_assoc.
Qed.




Lemma puts_app (acts acts' : list (@Invocation B)) :
  puts (acts ++ acts') = puts acts ++ puts acts'.
Proof. apply omap_app. Qed.

(** Out of loop mode a calm invocation stays out of loop mode, and what it
    plays, followed by what it leaves queued, is what was queued followed by
    what it enqueues. *)
Lemma invoke_conserves (i : Invocation) p :
  _loop p = false → calm i →
  _loop (res_state (invoke i p)) = false ∧
  plays (res_calls (invoke i p)) ++ (Some <$> queue (res_state (invoke i p)))
    = Some <$> (queue p ++ puts [i]).
Proof.
  intros Hloop Hcalm.
  destruct i as [e | e | e | value | item | f]; cbn [invoke puts omap list_omap].
  - cbn in Hcalm. rewrite app_nil_r.
    destruct (is_playing (base p) || waiting p) eqn:Hguard.
    { rewrite play_next_song_guarded by done. by cbn [res_state res_calls]. }
    destruct (queue p) as [| track rest] eqn:Hqueue.
    + assert (next_track e p = None) as Hnext.
      { unfold next_track. by rewrite Hqueue, Hcalm. }
      rewrite play_next_song_timeout by done. cbn [res_state res_calls].
      unfold cleared. fields. rewrite Hqueue.
      change (QueueGet idle_timeout :: teardown_calls e p)
        with ([QueueGet idle_timeout] ++ teardown_calls e p).
      by rewrite plays_app, plays_teardown_calls.
    + assert (next_track e p = Some (track, rest)) as Hnext.
      { unfold next_track. by rewrite Hqueue. }
      rewrite (play_next_song_new e p track rest) by done.
      rewrite res_state_after, res_calls_after, plays_app.
      destruct (songmenucontroller_frame e (started track rest p))
        as (_ & -> & -> & _).
      destruct (songmenucontroller_menu e (started track rest p))
        as (_ & -> & _).
      by rewrite loop_started.
  - rewrite app_nil_r.
    destruct (songmenucontroller_frame e p) as (_ & -> & -> & _).
    by destruct (songmenucontroller_menu e p) as (_ & -> & _).
  - rewrite app_nil_r, teardown_spec. cbn [res_state res_calls]. fields.
    by rewrite plays_teardown_calls.
  - cbn in Hcalm. subst value. cbn. by rewrite app_nil_r.
  - by cbn.
  - cbn. by rewrite app_nil_r.
Qed.

Lemma live_conserves (acts : list Invocation) p :
  _loop p = false → Forall calm acts →
  plays (snd (live acts p [])) ++ (Some <$> queue (fst (live acts p [])))
    = Some <$> (queue p ++ puts acts).
Proof.
  revert p. induction acts as [| i acts IH]; intros p Hloop Hcalm.
  { cbn. by rewrite app_nil_r. }
  apply Forall_cons in Hcalm as [Hi Hacts].
  destruct (invoke_conserves i p Hloop Hi) as [Hloop' Hstep].
  cbn [live].
  destruct (live_trace acts (res_state (invoke i p)) ([] ++ res_calls (invoke i p)))
    as [-> ->].
  rewrite app_nil_l, plays_app, <- app_assoc, (IH _ Hloop' Hacts).
  rewrite fmap_app, app_assoc, Hstep.
  change (i :: acts) with ([i] ++ acts).
  by rewrite puts_app, !fmap_app, !app_assoc.
Qed.

(** X14: out of loop mode a session plays its tracks in the order they were
    queued.  Through every life in which loop mode is never switched on and
    tracks come in through the commands, the tracks the node was asked to
    play, followed by the tracks still queued, are the tracks queued at the
    start followed by the tracks enqueued since: no track is skipped, played
    twice or lost. *)
Theorem session_plays_in_queue_order (acts : list Invocation) p :
  _loop p = false → Forall calm acts →
  plays (snd (live acts p [])) ++ (Some <$> queue (fst (live acts p [])))
    = Some <$> (queue p ++ puts acts).
Proof. apply live_conserves. Qed.



End SessionMore.

Module ProcessMoreFacts.
Import Process ProcessFacts.

(** [run_lavalink_process] when [which] finds the program, call by call. *)
Lemma run_lavalink_process_trace (e : Env) :
  returncode (which e) = 0 →
  run_lavalink_process e tt =
    mkResult (inr tt) tt
      ([Run ["which"; BaseProgram] false;
        Log Success ("The program " +:+ dquote +:+ BaseProgram +:+ dquote
                     +:+ " is installed. Lavalink can be run.");
        Log Info ("The location of " +:+ BaseProgram +:+ " is: " +:+ stdout (which e));
        Run [bash_command] true] ++
       (if returncode (launch e) =? 0 then [Log Success "Lavalink is running."] else []) ++
       (if returncode (launch e) =? -2 then []
        else [Log Error ("Lavalink is not running. Error: " +:+ stdout (launch e))])).
Proof.
  intros Hrc. unfold run_lavalink_process.
  rewrite (bind_run _ _ _ _ _ _ (subprocess_run_unchecked _ _ _ _)).
  rewrite Hrc. cbv beta iota. change (0 =? 0) with true. cbv iota. act.
  rewrite (bind_run _ _ _ _ _ _ (subprocess_run_unchecked _ _ _ _)).
  destruct (returncode (launch e) =? 0), (returncode (launch e) =? -2);
    act; by finish.
Qed.

(** X15: what the launch routine logs about the node depends on the exit
    status of the launch command alone.  With java present, the routine
    first checks, then launches, and then: an exit status 0 logs the success
    "Lavalink is running." and, right after it, the error "Lavalink is not
    running."; the exit status -2 logs nothing; every other exit status
    logs the error only. *)
Theorem launch_outcome_logging (e : Env) :
  returncode (which e) = 0 →
  ∃ outcome : list Event,
    res_calls (run_lavalink_process e tt) =
      [Run ["which"; BaseProgram] false;
       Log Success ("The program " +:+ dquote +:+ BaseProgram +:+ dquote
                    +:+ " is installed. Lavalink can be run.");
       Log Info ("The location of " +:+ BaseProgram +:+ " is: " +:+ stdout (which e));
       Run [bash_command] true] ++ outcome ∧
    (returncode (launch e) = 0 →
       outcome = [Log Success "Lavalink is running.";
                  Log Error ("Lavalink is not running. Error: " +:+ stdout (launch e))]) ∧
    (returncode (launch e) = -2 → outcome = []) ∧
    (returncode (launch e) ≠ 0 → returncode (launch e) ≠ -2 →
       outcome = [Log Error ("Lavalink is not running. Error: " +:+ stdout (launch e))]).
Proof.
  intros Hrc. rewrite run_lavalink_process_trace by done.
  cbn [res_calls]. eexists. split; [reflexivity |].
  split; [| split].
  - by intros ->.
  - by intros ->.
  - intros H0 H2.
    destruct (Z.eqb_spec (returncode (launch e)) 0); [done |].
    by destruct (Z.eqb_spec (returncode (launch e)) (-2)).
Qed.

(** X16: the launch routine runs at most two child processes and always
    starts with the check.  Its first call is [which java], run without a
    shell; the launch command is the only thing run in a shell, and only
    after the check has answered 0; the output of [which] is printed only
    when java is missing. *)
Theorem launch_follows_check (e : Env) :
  head (res_calls (run_lavalink_process e tt)) = Some (Run ["which"; BaseProgram] false) ∧
  (∀ args, Run args true ∈ res_calls (run_lavalink_process e tt) →
           args = [bash_command] ∧ returncode (which e) = 0) ∧
  (∀ text, Print text ∈ res_calls (run_lavalink_process e tt) →
           text = stdout (which e) ∧ returncode (which e) ≠ 0).
Proof.
  destruct (Z.eq_dec (returncode (which e)) 0) as [Hrc | Hrc].
  - rewrite run_lavalink_process_trace by done. cbn [res_calls].
    split; [done |].
    split; intros x Hin;
      destruct (returncode (launch e) =? 0), (returncode (launch e) =? -2);
      cbn in Hin;
      repeat (apply elem_of_cons in Hin as [Hin | Hin]; [try discriminate |]);
      try (by apply elem_of_nil in Hin);
      by injection Hin as <-.
  - rewrite run_lavalink_process_absent by done. cbn [res_calls].
    split; [done |].
    split; intros x Hin;
      repeat (apply elem_of_cons in Hin as [Hin | Hin]; [try discriminate |]);
      try (by apply elem_of_nil in Hin);
      by injection Hin as <-.
Qed.

End ProcessMoreFacts.

Module DeveloperFacts.
Import Developer.

Lemma purge_one_spec (bot_user : nat) (e : Env) (m : ChatMessage) (s : Purge) :
  purge_one bot_user e m s =
    mkResult (inr tt)
      (mkPurge
         (deleted s ++
          (if bool_decide (cm_author m = bot_user)
           then match delete_raises e m with Some _ => [] | None => [m] end
           else []))
         (messages s ++ [m]))
      (if bool_decide (cm_author m = bot_user)
       then Delete m :: match delete_raises e m with
                        | Some x => [LogError x]
                        | None => []
                        end
       else []).
Proof.
  unfold purge_one. act.
  destruct (bool_decide (cm_author m = bot_user)).
  - destruct (delete_raises e m) as [x |] eqn:Hraise.
    + erewrite bind_run; cycle 1.
      { eapply (try_handled_run _ _ _ x); [| reflexivity | reflexivity].
        unfold delete_message. act. rewrite Hraise. act. by finish. }
      cbv beta iota. by finish.
    + erewrite bind_run; cycle 1.
      { apply try_returned. unfold delete_message. act. rewrite Hraise.
        act. by finish. }
      cbv beta iota. by finish.
  - by finish.
Qed.

Lemma purge_each_spec (bot_user : nat) (e : Env) (ms : list ChatMessage) (s : Purge) :
  res_value (purge_each bot_user e ms s) = inr tt ∧
  messages (res_state (purge_each bot_user e ms s)) = messages s ++ ms ∧
  deleted (res_state (purge_each bot_user e ms s)) =
    deleted s ++ filter (λ m, cm_author m = bot_user ∧ delete_raises e m = None) ms ∧
  delete_calls (res_calls (purge_each bot_user e ms s)) =
    filter (λ m, cm_author m = bot_user) ms ∧
  logged (res_calls (purge_each bot_user e ms s)) =
    omap (delete_raises e) (filter (λ m, cm_author m = bot_user) ms).
Proof.
  revert s. induction ms as [| m ms IH]; intros s.
  { cbn. by rewrite !app_nil_r. }
  cbn [purge_each].
  rewrite (bind_run _ _ _ _ _ _ (purge_one_spec bot_user e m s)).
  rewrite res_value_after, res_state_after, res_calls_after.
  unfold delete_calls, logged in *. rewrite !omap_app, !filter_cons.
  destruct (decide (cm_author m = bot_user)) as [Hbot | Hother].
  - rewrite bool_decide_true by done.
    destruct (delete_raises e m) as [x |] eqn:Hraise.
    + rewrite decide_False by (by intros [_ ?]).
      destruct (IH (mkPurge (deleted s ++ []) (messages s ++ [m])))
        as (-> & -> & -> & -> & ->).
      cbn [messages deleted omap list_omap]. rewrite Hraise.
      by rewrite app_nil_r, <- app_assoc.
    + rewrite decide_True by done.
      destruct (IH (mkPurge (deleted s ++ [m]) (messages s ++ [m])))
        as (-> & -> & -> & -> & ->).
      cbn [messages deleted omap list_omap]. rewrite Hraise.
      by rewrite <- !app_assoc.
  - rewrite bool_decide_false by done.
    rewrite decide_False by (by intros [? _]).
    destruct (IH (mkPurge (deleted s ++ []) (messages s ++ [m])))
      as (-> & -> & -> & -> & ->).
    cbn [messages deleted omap list_omap].
    by rewrite app_nil_r, <- app_assoc.
Qed.

(** X17: [cleanup] deletes the bot's own messages and nothing else.  It
    answers the owner first, then asks the channel for its history, and for
    the messages the history yields it tries to delete exactly those written
    by the bot, in order and once each; a delete that raises is logged and
    the purge goes on with the next message; the command returns normally,
    and its list of deleted messages holds the bot's messages whose delete
    did not raise. *)
Theorem cleanup_deletes_own_messages (bot_user : nat) (e : Env) (amount : Z)
    (s : Purge) :
  res_value (cleanup bot_user e amount s) = inr tt ∧
  take 3 (res_calls (cleanup bot_user e amount s))
    = [RespondDeleting amount true; Typing; History amount] ∧
  delete_calls (res_calls (cleanup bot_user e amount s))
    = filter (λ m, cm_author m = bot_user) (yielded e) ∧
  logged (res_calls (cleanup bot_user e amount s))
    = omap (delete_raises e) (filter (λ m, cm_author m = bot_user) (yielded e)) ∧
  messages (res_state (cleanup bot_user e amount s)) = yielded e ∧
  deleted (res_state (cleanup bot_user e amount s))
    = filter (λ m, cm_author m = bot_user ∧ delete_raises e m = None) (yielded e).
Proof.
  unfold cleanup. act.
  rewrite !res_value_after, !res_state_after, !res_calls_after.
  destruct (purge_each_spec bot_user e (yielded e) (mkPurge [] []))
    as (-> & -> & -> & Hdel & Hlog).
  unfold delete_calls, logged in *. rewrite !omap_app, Hdel, Hlog.
  done.
Qed.

End DeveloperFacts.

Module CogManagerFacts.
Import CogManager.

Lemma extension_call_spec (ev : Event) (e : Env) (s : unit) :
  extension_call ev e s =
    mkResult (match extension_raises e with Some x => inl x | None => inr tt end)
             s [ev].
Proof.
  unfold extension_call. act. destruct (extension_raises e); act; by finish.
Qed.

(** A branch whose extension call returns answers with its success. *)
Lemma manage_success (ev : Event) (e : Env) on_error (success : Reply) (s : unit) :
  extension_raises e = None →
  manage ev e on_error success s =
    mkResult (inr tt) s [ev; SendMessage success true].
Proof.
  intros Hok. pose proof (extension_call_spec ev e s) as Hcall.
  rewrite Hok in Hcall. unfold manage.
  erewrite bind_run; cycle 1.
  { apply try_returned. rewrite (bind_run _ _ _ _ _ _ Hcall). by finish. }
  cbv beta iota. by finish.
Qed.

(** A branch whose extension call raises answers with what [on_error]
    builds, and with nothing when building it raises. *)
Lemma manage_failure (ev : Event) (e : Env) on_error (success : Reply) (s : unit)
    (x : Exn) (v : Exn + Reply) :
  extension_raises e = Some x →
  on_error x s = mkResult v s [] →
  manage ev e on_error success s =
    match v with
    | inr reply => mkResult (inr tt) s [ev; SendMessage reply true]
    | inl y => mkResult (inl y) s [ev]
    end.
Proof.
  intros Hraise Herr. pose proof (extension_call_spec ev e s) as Hcall.
  rewrite Hraise in Hcall. unfold manage.
  destruct v as [y | reply].
  - rewrite (bind_raised _ _ s y s ([ev] ++ [])); [done |].
    eapply (try_handled_run _ _ _ x); [| reflexivity |].
    + by rewrite (bind_raised _ _ _ _ _ _ Hcall).
    + by rewrite (bind_raised _ _ _ _ _ _ Herr).
  - erewrite bind_run; cycle 1.
    { eapply (try_handled_run _ _ _ x); [| reflexivity |].
      - by rewrite (bind_raised _ _ _ _ _ _ Hcall).
      - rewrite (bind_run _ _ _ _ _ _ Herr). act. by finish. }
    cbv beta iota. by finish.
Qed.

Section Command.
Variable lower : string → string.

(** X18: the command acts on three actions only.  For an action whose
    lower case is none of "disable", "enable" and "reload", the command
    loads, unloads and reloads nothing and sends no answer: it returns in
    silence. *)
Theorem cog_ignores_other_actions (e : Env) (action name : string) :
  lower action ≠ "disable" → lower action ≠ "enable" → lower action ≠ "reload" →
  cog lower e action name tt = mkResult (inr tt) tt [].
Proof.
  intros Hd He Hr. unfold cog.
  by rewrite !bool_decide_false by done.
Qed.

(** X19: a handled action makes one extension call on the module
    [cogs.<name>] and gives one answer, for the invoker's eyes only.
    "disable" unloads, "enable" loads, "reload" reloads; when the call
    returns the answer reports the success, when it raises (and, for
    "enable" and "reload", the error file can be written) the answer reports
    the error and no success follows. *)
Theorem cog_one_call_one_answer (e : Env) (action name : string) :
  error_log_raises e = None →
  (lower action = "disable" →
     cog lower e action name tt =
       mkResult (inr tt) tt
         [UnloadExtension ("cogs." +:+ name);
          SendMessage (match extension_raises e with
                       | Some x => NotLoaded name x
                       | None => Stopped name
                       end) true]) ∧
  (lower action = "enable" →
     cog lower e action name tt =
       mkResult (inr tt) tt
         [LoadExtension ("cogs." +:+ name);
          SendMessage (match extension_raises e with
                       | Some x => HasError x
                       | None => Running name
                       end) true]) ∧
  (lower action = "reload" →
     cog lower e action name tt =
       mkResult (inr tt) tt
         [ReloadExtension ("cogs." +:+ name);
          SendMessage (match extension_raises e with
                       | Some x => HasError x
                       | None => Reloaded name
                       end) true]).
Proof.
  intros Hlog.
  assert (∀ x, error_file e x tt = mkResult (inr (HasError x)) tt []) as Hfile.
  { intros x. unfold error_file. by rewrite Hlog. }
  split; [| split]; intros Haction; unfold cog; rewrite Haction;
    repeat (first [rewrite bool_decide_true by done
                  | rewrite bool_decide_false by done]; cbv beta iota);
    destruct (extension_raises e) as [x |] eqn:Hraise.
  - by rewrite (manage_failure _ e _ _ tt x (inr (NotLoaded name x))).
  - by rewrite manage_success.
  - by rewrite (manage_failure _ e _ _ tt x (inr (HasError x))).
  - by rewrite manage_success.
  - by rewrite (manage_failure _ e _ _ tt x (inr (HasError x))).
  - by rewrite manage_success.
Qed.

(** X20: when the error log cannot be written, a failing "enable" or
    "reload" gives no answer.  The extension call is made, the exception
    raised while the file [error.log] is built leaves the command, and
    neither the error nor a success is reported; "disable" builds no file
    and answers as usual. *)
Theorem cog_error_log_failure (e : Env) (action name : string) (x y : Exn) :
  extension_raises e = Some x → error_log_raises e = Some y →
  (lower action = "enable" →
     cog lower e action name tt =
       mkResult (inl y) tt [LoadExtension ("cogs." +:+ name)]) ∧
  (lower action = "reload" →
     cog lower e action name tt =
       mkResult (inl y) tt [ReloadExtension ("cogs." +:+ name)]) ∧
  (lower action = "disable" →
     cog lower e action name tt =
       mkResult (inr tt) tt
         [UnloadExtension ("cogs." +:+ name); SendMessage (NotLoaded name x) true]).
Proof.
  intros Hraise Hlog.
  assert (error_file e x tt = mkResult (inl y) tt []) as Hfile.
  { unfold error_file. by rewrite Hlog. }
  split; [| split]; intros Haction; unfold cog; rewrite Haction;
    repeat (first [rewrite bool_decide_true by done
                  | rewrite bool_decide_false by done]; cbv beta iota).
  - by rewrite (manage_failure _ e _ _ tt x (inl y)).
  - by rewrite (manage_failure _ e _ _ tt x (inl y)).
  - by rewrite (manage_failure _ e _ _ tt x (inr (NotLoaded name x))).
Qed.

End Command.

End CogManagerFacts.

(** ** The further properties on concrete inputs *)
Module MoreExamples.
Import Sample MoreSamples.



Lemma getitem_agrees_with_remove_witness :
  (∃ (x : Track) (before behind : list Track),
     three = before ++ x :: behind ∧
     Z.of_nat (length before) = 1 ∧
     Queue.getitem (-2) three = mkResult (inr x) three [] ∧
     Queue.remove (-2) three = mkResult (inr tt) (before ++ behind) []) ∧
  Queue.getitem 3 three = mkResult (inl IndexError) three [].
Proof.
  split.
  - apply (proj1 (QueueIndexFacts.getitem_agrees_with_remove three (-2))).
    unfold Queue.qsize. simpl length. lia.
  - apply (proj2 (QueueIndexFacts.getitem_agrees_with_remove three 3)).
    right. unfold Queue.qsize. simpl length. lia.
Defined.

Lemma put_then_remove_last_witness :
  Queue.getitem 1 (res_state (Queue.put_nowait song_c [song_a; song_b]))
    = mkResult (inr song_b) (res_state (Queue.put_nowait song_c [song_a; song_b])) [].
Proof.
  apply (proj2 (proj2 (proj2
           (QueueIndexFacts.put_then_remove_last [song_a; song_b] song_c))) 1%nat).
  reflexivity.
Defined.


Lemma session_stuck_after_idle_timeout_witness :
  plays (snd (live [Put song_a; NodeUpdate (λ b, b); PlayNextSong (quiet second_message)]
                (res_state (play_next_song (quiet first_message) (init idle_node)))
                [])) = [].
Proof.
  assert (is_playing (base (init idle_node)) = false) as Hidle
    by (vm_compute; reflexivity).
  exact (proj1 (proj2 (proj2
           (session_stuck_after_idle_timeout (quiet first_message) (init idle_node)
              [Put song_a; NodeUpdate (λ b, b); PlayNextSong (quiet second_message)]
              Hidle eq_refl eq_refl eq_refl eq_refl)))).
Defined.


Lemma is_menu_available_answers_witness :
  res_calls (is_menu_available (quiet second_message) with_menu) = [ChannelHistory 10] ∧
  ∃ answer : bool,
    res_value (is_menu_available (quiet second_message) with_menu) = inr answer ∧
    (answer = true ↔
       ∃ m mid ids, menu with_menu = Some m ∧ msg_message m = Some mid ∧
                    recent (quiet second_message) = Some ids ∧ mid ∈ take 10 ids).
Proof.
  exact (proj2 (is_menu_available_answers (quiet second_message) with_menu)).
Defined.



Lemma session_plays_in_queue_order_witness :
  plays (snd (live [PlayNextSong (quiet first_message); Put song_c] queued [])) ++
  (Some <$> queue (fst (live [PlayNextSong (quiet first_message); Put song_c] queued [])))
    = Some <$> (queue queued ++ @puts Node [PlayNextSong (quiet first_message); Put song_c]).
Proof.
  apply (session_plays_in_queue_order
           [PlayNextSong (quiet first_message); Put song_c] queued eq_refl).
  repeat constructor.
Defined.


Lemma launch_outcome_logging_witness :
  ∃ outcome : list Process.Event,
    res_calls (Process.run_lavalink_process java_found tt) =
      [Process.Run ["which"; Process.BaseProgram] false;
       Process.Log Process.Success
         ("The program " +:+ Process.dquote +:+ Process.BaseProgram +:+ Process.dquote
          +:+ " is installed. Lavalink can be run.");
       Process.Log Process.Info
         ("The location of " +:+ Process.BaseProgram +:+ " is: "
          +:+ Process.stdout (Process.which java_found));
       Process.Run [Process.bash_command] true] ++ outcome ∧
    outcome = [Process.Log Process.Success "Lavalink is running.";
               Process.Log Process.Error
                 ("Lavalink is not running. Error: "
                  +:+ Process.stdout (Process.launch java_found))].
Proof.
  destruct (ProcessMoreFacts.launch_outcome_logging java_found eq_refl)
    as (outcome & Hcalls & Hzero & _).
  exists outcome. split; [exact Hcalls | exact (Hzero eq_refl)].
Defined.

Lemma launch_follows_check_witness :
  EmptyString = Process.stdout (Process.which java_missing) ∧
  Process.returncode (Process.which java_missing) ≠ 0.
Proof.
  apply (proj2 (proj2 (ProcessMoreFacts.launch_follows_check java_missing))).
  apply (list_elem_of_lookup_2 _ 2%nat). vm_compute. reflexivity.
Defined.

Lemma cog_ignores_other_actions_witness :
  "remove" ∈ CogManager.Action ∧
  CogManager.cog CogManager.ascii_lower broken_extension "Remove" "Music" tt
    = mkResult (inr tt) tt [].
Proof.
  split; [by vm_compute; repeat constructor |].
  apply (CogManagerFacts.cog_ignores_other_actions CogManager.ascii_lower
           broken_extension "Remove" "Music"); vm_compute; discriminate.
Defined.

Lemma cog_one_call_one_answer_witness :
  CogManager.cog CogManager.ascii_lower broken_extension "Disable" "Music" tt =
    mkResult (inr tt) tt
      [CogManager.UnloadExtension ("cogs." +:+ "Music");
       CogManager.SendMessage
         (match CogManager.extension_raises broken_extension with
          | Some x => CogManager.NotLoaded "Music" x
          | None => CogManager.Stopped "Music"
          end) true].
Proof.
  apply (proj1 (CogManagerFacts.cog_one_call_one_answer CogManager.ascii_lower
                  broken_extension "Disable" "Music" eq_refl)).
  vm_compute. reflexivity.
Defined.

Lemma cog_error_log_failure_witness :
  CogManager.cog CogManager.ascii_lower broken_twice "enable" "Music" tt =
    mkResult (inl AttributeError) tt [CogManager.LoadExtension ("cogs." +:+ "Music")].
Proof.
  apply (proj1 (CogManagerFacts.cog_error_log_failure CogManager.ascii_lower
                  broken_twice "enable" "Music" KeyError AttributeError
                  eq_refl eq_refl)).
  vm_compute. reflexivity.
Defined.

End MoreExamples.
